(** * News text classification: the Longformer training script

    A shallow embedding of [src/models/LF_trainingv2.py]: the tokenization
    cache, the dataset adapter, the class-weight estimator, the weighted
    trainer's loss, the metrics function and the checkpoint loader, with
    the properties the specification states about them.

    Conventions.
    - Python [int] is [Z]; a Python [dict] with string keys is a
      [gmap string _]; a Python [list] is a [list].
    - Code that touches the outside world (the file system, the console,
      the accelerator cache, the tokenizer) runs in the monad [M]: a state
      monad over [World] whose computations either return a value or raise
      a Python exception.  A raised exception keeps the world reached so
      far: effects are never rolled back.
    - Third-party functions the script calls (the tokenizer, [pickle],
      [from_pretrained], the model's forward pass, the cross-entropy loss)
      are parameters.  The numeric helpers of scikit-learn and NumPy are
      written out from their documented behaviour. *)

From stdpp Require Import gmap strings list fin_maps pretty numbers countable sorting.
From Stdlib Require Import QArith Qcanon.
From Stdlib.Strings Require Import Byte Ascii.

Open Scope Z_scope.

(** ** Exceptions and results *)

Inductive exn : Type :=
  | KeyError (key : string)
  | IndexError
  | TypeError
  | ValueError
  | AttributeError
  | RuntimeError
  | FileNotFoundError (path : string)
  | IsADirectoryError (path : string)
  | UnpicklingError
  | OSError.

Inductive Res (A : Type) : Type :=
  | Ok (a : A)
  | Raise (e : exn).
Arguments Ok {A} a.
Arguments Raise {A} e.

Definition is_Ok {A} (r : Res A) : Prop := ∃ a, r = Ok a.

Definition res_bind {A B} (r : Res A) (k : A → Res B) : Res B :=
  match r with
  | Ok a => k a
  | Raise e => Raise e
  end.

(** ** The world: files and observable events *)

(** A path names a regular file with its bytes, or a directory with the
    size [os.path.getsize] reports for it (this depends on the platform). *)
Inductive node : Type :=
  | File (content : list byte)
  | Dir (st_size : Z).

Inductive event : Type :=
  | EvTokenizer (text : string) (max_length : Z)
  | EvPrint (line : string)
  | EvCudaEmptyCache
  | EvGcCollect
  | EvRead (path : string)
  | EvWrite (path : string).

Record World : Type := mkWorld {
  fs : gmap string node;
  trace : list event
}.

Definition M (A : Type) : Type := World → Res A * World.

Definition ret {A} (a : A) : M A := λ w, (Ok a, w).

Definition raise {A} (e : exn) : M A := λ w, (Raise e, w).

Definition bind {A B} (c : M A) (k : A → M B) : M B :=
  λ w, match c w with
       | (Ok a, w') => k a w'
       | (Raise e, w') => (Raise e, w')
       end.

Notation "x <- c ;; k" := (bind c (λ x, k))
  (at level 100, c at next level, right associativity).
Notation "c ;;; k" := (bind c (λ _, k))
  (at level 100, right associativity).

Definition lift {A} (r : Res A) : M A := λ w, (r, w).

Definition emit (e : event) : M unit :=
  λ w, (Ok tt, mkWorld (fs w) (trace w ++ [e])).

(** [os.path.exists]: true for files and for directories. *)
Definition os_path_exists (path : string) : M bool :=
  λ w, (Ok (bool_decide (is_Some (fs w !! path))), w).

(** [os.path.getsize]. *)
Definition os_path_getsize (path : string) : M Z :=
  λ w, match fs w !! path with
       | Some (File content) => (Ok (Z.of_nat (length content)), w)
       | Some (Dir sz) => (Ok sz, w)
       | None => (Raise (FileNotFoundError path), w)
       end.

(** [open(path, "rb")] followed by reading the whole file. *)
Definition read_file (path : string) : M (list byte) :=
  λ w, match fs w !! path with
       | Some (File content) =>
           (Ok content, mkWorld (fs w) (trace w ++ [EvRead path]))
       | Some (Dir _) => (Raise (IsADirectoryError path), w)
       | None => (Raise (FileNotFoundError path), w)
       end.

(** [open(path, "wb")] followed by writing [content]: the file is created
    or replaced; a directory cannot be opened for writing. *)
Definition write_file (path : string) (content : list byte) : M unit :=
  λ w, match fs w !! path with
       | Some (Dir _) => (Raise (IsADirectoryError path), w)
       | _ => (Ok tt, mkWorld (<[path := File content]> (fs w))
                              (trace w ++ [EvWrite path]))
       end.

(** [os.remove]: deletes a regular file. *)
Definition os_remove (path : string) : M unit :=
  λ w, match fs w !! path with
       | Some (File _) => (Ok tt, mkWorld (delete path (fs w)) (trace w))
       | Some (Dir _) => (Raise (IsADirectoryError path), w)
       | None => (Raise (FileNotFoundError path), w)
       end.

Definition print (line : string) : M unit := emit (EvPrint line).
Definition torch_cuda_empty_cache : M unit := emit EvCudaEmptyCache.
Definition gc_collect : M unit := emit EvGcCollect.

(** ** Python containers *)

(** [d[key]] on a dict: [KeyError] when the key is absent. *)
Definition dict_getitem {V} (d : gmap string V) (key : string) : Res V :=
  match d !! key with
  | Some v => Ok v
  | None => Raise (KeyError key)
  end.

(** [l[idx]] on a list: a negative index counts from the end, and an index
    outside [-len, len) raises [IndexError]. *)
Definition list_getitem {A} (l : list A) (idx : Z) : Res A :=
  let n := Z.of_nat (length l) in
  let pos := if idx <? 0 then idx + n else idx in
  if (0 <=? pos) && (pos <? n) then
    match l !! Z.to_nat pos with
    | Some a => Ok a
    | None => Raise IndexError
    end
  else Raise IndexError.

(** ** Tokenization cache (lines 32-56) *)

(** What the tokenizer returns for one text: a dict-like encoding. *)
Abbreviation BatchEncoding := (gmap string (list Z)).

(** The tokenizer called as
    [tokenizer(text, truncation=True, padding='max_length', max_length=m)]. *)
Definition Tokenizer : Type := string → Z → Res BatchEncoding.

(** The mapping the cache stores. *)
Abbreviation Encodings := (gmap string (list (list Z))).

Definition call_tokenizer (tokenizer : Tokenizer) (text : string)
    (max_length : Z) : M BatchEncoding :=
  emit (EvTokenizer text max_length) ;;;
  lift (tokenizer text max_length).

(** The progress line [f"[{i}/{len(texts)}] Tokenized..."]. *)
Definition progress_line (i n : Z) : string :=
  "[" +:+ pretty i +:+ "/" +:+ pretty n +:+ "] Tokenized...".

(** The body of [for i, text in enumerate(texts)], from index [i] on;
    [n] is [len(texts)] of the whole list. *)
Fixpoint tokenize_loop (tokenizer : Tokenizer) (max_length n i : Z)
    (texts : list string) (input_ids attention_mask : list (list Z))
    : M (list (list Z) * list (list Z)) :=
  match texts with
  | [] => ret (input_ids, attention_mask)
  | text :: rest =>
      encoding <- call_tokenizer tokenizer text max_length ;;
      ids <- lift (dict_getitem encoding "input_ids") ;;
      mask <- lift (dict_getitem encoding "attention_mask") ;;
      (if i `mod` 500 =? 0 then
         print (progress_line i n) ;;;
         torch_cuda_empty_cache ;;;
         gc_collect
       else ret tt) ;;;
      tokenize_loop tokenizer max_length n (i + 1) rest
        (input_ids ++ [ids]) (attention_mask ++ [mask])
  end.

Definition make_encodings (input_ids attention_mask : list (list Z))
    : Encodings :=
  {[ "input_ids" := input_ids; "attention_mask" := attention_mask ]}.

(** The test of line 33:
    [os.path.exists(cache_path) and os.path.getsize(cache_path) > 0]. *)
Definition cache_usable (cache_path : string) : M bool :=
  present <- os_path_exists cache_path ;;
  if present : bool then
    size <- os_path_getsize cache_path ;;
    ret (0 <? size)
  else ret false.

Section TokenizeWithCache.

(** [pickle.dumps] and [pickle.loads] on the cached mapping. *)
Variable pickle_dumps : Encodings → list byte.
Variable pickle_loads : list byte → option Encodings.

Definition pickle_load (content : list byte) : M Encodings :=
  match pickle_loads content with
  | Some obj => ret obj
  | None => raise UnpicklingError
  end.

Definition tokenize_with_cache (texts : list string) (tokenizer : Tokenizer)
    (max_length : Z) (cache_path : string) : M Encodings :=
  usable <- cache_usable cache_path ;;
  if usable : bool then
    content <- read_file cache_path ;;
    pickle_load content
  else
    arrays <-
      tokenize_loop tokenizer max_length (Z.of_nat (length texts)) 0
        texts [] [] ;;
    let '(input_ids, attention_mask) := arrays in
    let encodings := make_encodings input_ids attention_mask in
    write_file cache_path (pickle_dumps encodings) ;;;
    ret encodings.

End TokenizeWithCache.

(** The maximal length of line 30, passed to both calls of lines 58-59. *)
Definition max_length : Z := 1024.

(** ** Dataset adapter (lines 62-78) *)

Global Instance Res_ret : MRet Res := λ A a, Ok a.
Global Instance Res_bind : MBind Res := λ A B k r, res_bind r k.

(** An integer tensor, as [torch.tensor] builds it from a Python int or
    from a list of Python ints.  The element type is a signed 64-bit
    integer; a value outside its range is refused. *)
Inductive tensor : Type :=
  | Scalar (value : Z)
  | Vector (values : list Z).

Definition int64_range (z : Z) : bool := (- 2 ^ 63 <=? z) && (z <? 2 ^ 63).

Definition torch_tensor_int (z : Z) : Res tensor :=
  if int64_range z then Ok (Scalar z) else Raise RuntimeError.

Definition torch_tensor_list (l : list Z) : Res tensor :=
  if forallb int64_range l then Ok (Vector l) else Raise RuntimeError.

Module NewsDataset.

Record t : Type := __init__ {
  encodings : Encodings;
  labels : list Z
}.

Definition __len__ (self : t) : Z := Z.of_nat (length (labels self)).

Definition __getitem__ (self : t) (idx : Z) : Res (gmap string tensor) :=
  all_ids ← dict_getitem (encodings self) "input_ids";
  ids ← list_getitem all_ids idx;
  input_ids ← torch_tensor_list ids;
  all_masks ← dict_getitem (encodings self) "attention_mask";
  mask ← list_getitem all_masks idx;
  attention_mask ← torch_tensor_list mask;
  label ← list_getitem (labels self) idx;
  shifted ← torch_tensor_int (label + 1);
  Ok ({[ "input_ids" := input_ids;
         "attention_mask" := attention_mask;
         "labels" := shifted ]} : gmap string tensor).

End NewsDataset.

(** ** Binary64 arithmetic

    A float is the rational it denotes; every operation rounds its exact
    result with [round64].  The laws are those of round-to-nearest in
    binary64 as long as no exponent overflows or underflows. *)

Class Rounding : Type := round64 : Qc → Qc.

Definition Z2Qc (z : Z) : Qc := Q2Qc (inject_Z z).

Class RoundingLaws `{Rounding} : Prop := {
  round64_mono : ∀ p q : Qc, (p ≤ q)%Qc → (round64 p ≤ round64 q)%Qc;
  round64_idem : ∀ q : Qc, round64 (round64 q) = round64 q;
  round64_double : ∀ q : Qc, round64 (Z2Qc 2 * q)%Qc = (Z2Qc 2 * round64 q)%Qc;
  round64_int : ∀ z : Z, - 2 ^ 53 ≤ z ≤ 2 ^ 53 → round64 (Z2Qc z) = Z2Qc z
}.

Section Float.

Context `{Rounding}.

(** Conversion of an integer to a float, [np.float64(z)]. *)
Definition of_int (z : Z) : Qc := round64 (Z2Qc z).

Definition fadd (x y : Qc) : Qc := round64 (x + y)%Qc.
Definition fmul (x y : Qc) : Qc := round64 (x * y)%Qc.
Definition fdiv (x y : Qc) : Qc := round64 (x / y)%Qc.

(** ** Class weights (line 81) *)

(** [np.unique]: the distinct values, in increasing order. *)
Definition np_unique (y : list Z) : list Z := merge_sort Z.le (remove_dups y).

(** How often [c] occurs in [y]. *)
Definition count_of (c : Z) (y : list Z) : Z :=
  Z.of_nat (length (filter (λ v, v = c) y)).

(** The position of [c] in [l]. *)
Fixpoint index_of (c : Z) (l : list Z) : option nat :=
  match l with
  | [] => None
  | v :: rest => if decide (v = c) then Some 0%nat else S <$> index_of c rest
  end.

(** scikit-learn's [compute_class_weight(class_weight='balanced', classes, y)]:
    [classes] must cover the labels of [y] and each class must occur in [y];
    then [recip_freq = len(y) / (len(le.classes_) * np.bincount(y_ind))] is
    read at the position of each class. *)
Definition compute_class_weight (classes y : list Z) : Res (list Qc) :=
  if negb (forallb (λ v, bool_decide (v ∈ classes)) y) then Raise ValueError
  else
    let le_classes := np_unique y in
    if negb (forallb (λ c, bool_decide (c ∈ le_classes)) classes)
    then Raise ValueError
    else
      let bincount := map (λ c, of_int (count_of c y)) le_classes in
      let recip_freq :=
        map (λ cnt, fdiv (of_int (Z.of_nat (length y)))
                         (fmul (of_int (Z.of_nat (length le_classes))) cnt))
            bincount in
      mapM (λ c, match index_of c le_classes ≫= (recip_freq !!.) with
                 | Some w => Ok w
                 | None => Raise IndexError
                 end) classes.

(** The split of lines 24-26, as [train_test_split] returns it. *)
Record Split : Type := mkSplit {
  train_texts : list string;
  val_texts : list string;
  train_labels : list Z;
  val_labels : list Z
}.

Definition class_weights (s : Split) : Res (list Qc) :=
  compute_class_weight [-1; 0; 1] (train_labels s).

(** ** Metrics (lines 99-104) *)

(** NumPy's signed 64-bit integers wrap around. *)
Definition wrap64 (z : Z) : Z := (z + 2 ^ 63) `mod` 2 ^ 64 - 2 ^ 63.

(** An integer array minus a scalar, [a - c]. *)
Definition np_sub (a : list Z) (c : Z) : list Z := map (λ v, wrap64 (v - c)) a.

(** [np.argmax] of one row: the first position of the largest entry. *)
Fixpoint argmax_from (best_pos : nat) (best : Qc) (pos : nat) (row : list Qc)
    : nat :=
  match row with
  | [] => best_pos
  | x :: rest =>
      if bool_decide (best < x)%Qc
      then argmax_from pos x (S pos) rest
      else argmax_from best_pos best (S pos) rest
  end.

Definition np_argmax (row : list Qc) : Res nat :=
  match row with
  | [] => Raise ValueError
  | x :: rest => Ok (argmax_from 0%nat x 1%nat rest)
  end.

(** How many positions of the two vectors satisfy [P]. *)
Definition count_where (P : Z → Z → bool) (y_true y_pred : list Z) : Z :=
  Z.of_nat (length (filter (λ tp, P tp.1 tp.2) (zip y_true y_pred))).

(** scikit-learn's [accuracy_score]: the fraction of positions where the
    two vectors agree.  Vectors of different lengths are refused; so is an
    empty input, which has no mean. *)
Definition accuracy_score (y_true y_pred : list Z) : Res Qc :=
  if negb (length y_true =? length y_pred)%nat then Raise ValueError
  else if (length y_true =? 0)%nat then Raise ValueError
  else Ok (fdiv (of_int (count_where Z.eqb y_true y_pred))
                (of_int (Z.of_nat (length y_true)))).

(** The F1 score of one label: [2 * tp / (true_sum + pred_sum)], written as
    scikit-learn computes it with [beta2 = 1.0], and [0.0] when the label
    is neither true nor predicted. *)
Definition f1_of_label (y_true y_pred : list Z) (l : Z) : Qc :=
  let tp_sum := count_where (λ t p, (t =? l) && (p =? l)) y_true y_pred in
  let true_sum := count_of l y_true in
  let pred_sum := count_of l y_pred in
  let beta2 := Z2Qc 1 in
  if true_sum + pred_sum =? 0 then Z2Qc 0
  else fdiv (fmul (fadd (Z2Qc 1) beta2) (of_int tp_sum))
            (fadd (fmul beta2 (of_int true_sum)) (of_int pred_sum)).

(** [np.mean] of a float vector. *)
Definition np_mean (v : list Qc) : Qc :=
  fdiv (foldl fadd (Z2Qc 0) v) (of_int (Z.of_nat (length v))).

(** scikit-learn's [f1_score(average='macro')]: the unweighted mean of the
    per-label F1 over the labels that occur in either vector. *)
Definition f1_score_macro (y_true y_pred : list Z) : Res Qc :=
  if negb (length y_true =? length y_pred)%nat then Raise ValueError
  else if (length y_true =? 0)%nat then Raise ValueError
  else
    let present_labels := np_unique (y_true ++ y_pred) in
    Ok (np_mean (map (f1_of_label y_true y_pred) present_labels)).

(** The trainer's [EvalPrediction]: the logit matrix, given by its rows, and
    the label ids. *)
Record EvalPrediction : Type := mkEvalPrediction {
  predictions : list (list Qc);
  label_ids : list Z
}.

Definition compute_metrics (pred : EvalPrediction) : Res (gmap string Qc) :=
  let labels := np_sub (label_ids pred) 1 in
  positions ← mapM np_argmax (predictions pred);
  let preds := np_sub (Z.of_nat <$> positions) 1 in
  acc ← accuracy_score labels preds;
  f1 ← f1_score_macro labels preds;
  Ok ({[ "accuracy" := acc; "f1" := f1 ]} : gmap string Qc).

End Float.

(** ** Weighted trainer (lines 85-96) *)

Section WeightedTrainer.

(** Float tensors and devices of the tensor library are opaque here. *)
Variable FloatTensor : Type.
Variable Device : Type.

(** [tensor.to(device)]. *)
Variable tensor_to : FloatTensor → Device → FloatTensor.

(** [torch.nn.CrossEntropyLoss(weight=w)(logits, labels)]. *)
Variable CrossEntropyLoss : FloatTensor → FloatTensor → FloatTensor → Res FloatTensor.

(** A model: its forward pass on the keyword arguments of a batch, and the
    device it lives on. *)
Record Model : Type := mkModel {
  forward : gmap string FloatTensor → Res (gmap string FloatTensor);
  device : Device
}.

Record WeightedTrainer : Type := mkWeightedTrainer {
  trainer_class_weights : option FloatTensor
}.

(** What [compute_loss] returns: the loss alone, or the loss with the
    model's outputs. *)
Inductive LossResult : Type :=
  | LossOnly (loss : FloatTensor)
  | LossAndOutputs (loss : FloatTensor) (outputs : gmap string FloatTensor).

Definition compute_loss (self : WeightedTrainer) (model : Model)
    (inputs : gmap string FloatTensor) (return_outputs : bool)
    : Res LossResult :=
  let labels := inputs !! "labels" in
  outputs ← forward model inputs;
  let logits := outputs !! "logits" in
  weight ← match trainer_class_weights self with
           | Some w => Ok (tensor_to w (device model))
           | None => Raise AttributeError
           end;
  let loss_fct := CrossEntropyLoss weight in
  loss ← match logits, labels with
         | Some lg, Some lb => loss_fct lg lb
         | _, _ => Raise TypeError
         end;
  Ok (if return_outputs then LossAndOutputs loss outputs else LossOnly loss).

End WeightedTrainer.

(** ** Checkpoint loader (lines 107-117) *)

Definition checkpoint_path : option string :=
  Some "./results_phase2/checkpoint-9580".

Definition base_model_name : string := "allenai/longformer-base-4096".

Fixpoint ends_with_slash (s : string) : bool :=
  match s with
  | EmptyString => false
  | String c EmptyString => bool_decide (c = "/"%char)
  | String _ rest => ends_with_slash rest
  end.

(** [os.path.join] of two components. *)
Definition os_path_join (a b : string) : string :=
  if String.prefix "/" b then b
  else if bool_decide (a = "") || ends_with_slash a then a +:+ b
  else a +:+ "/" +:+ b.

Section CheckpointLoader.

Variable LModel : Type.

(** [LongformerForSequenceClassification.from_pretrained(name, num_labels=n)]:
    what it builds depends on the files it finds. *)
Variable from_pretrained : gmap string node → string → option Z → Res LModel.

Variable gradient_checkpointing_enable : LModel → LModel.

(** [model.to(device)]. *)
Variable model_to : LModel → string → Res LModel.

Definition from_pretrained_m (name : string) (num_labels : option Z)
    : M LModel :=
  λ w, (from_pretrained (fs w) name num_labels, w).

(** Lines 109-115. *)
Definition load_checkpoint (checkpoint_path : option string) : M LModel :=
  match checkpoint_path with
  | Some path =>
      present <- (if bool_decide (path = "") then ret false
                  else os_path_exists path) ;;
      if present : bool then
        model <- from_pretrained_m path None ;;
        let rng_file := os_path_join path "rng_state.pth" in
        stale <- os_path_exists rng_file ;;
        (if stale : bool then os_remove rng_file else ret tt) ;;;
        ret model
      else from_pretrained_m base_model_name (Some 3)
  | None => from_pretrained_m base_model_name (Some 3)
  end.

(** Lines 107-117. *)
Definition load_model : M LModel :=
  model <- load_checkpoint checkpoint_path ;;
  let model := gradient_checkpointing_enable model in
  lift (model_to model "cuda").

End CheckpointLoader.

(** ** Derived notions used by the statements *)

(** Whether line 33 finds a usable cache at [path]: the path exists and its
    size is positive. *)
Definition cache_present (files : gmap string node) (path : string) : bool :=
  match files !! path with
  | Some (File content) => 0 <? Z.of_nat (length content)
  | Some (Dir sz) => 0 <? sz
  | None => false
  end.

Definition is_tokenizer_event (e : event) : bool :=
  match e with EvTokenizer _ _ => true | _ => false end.

Definition is_write_event (e : event) : bool :=
  match e with EvWrite _ => true | _ => false end.

Definition tokenizer_calls (evs : list event) : nat :=
  length (filter (λ e, is_tokenizer_event e = true) evs).

Definition no_write (evs : list event) : Prop :=
  Forall (λ e, is_write_event e = false) evs.

Definition add_events (w : World) (evs : list event) : World :=
  mkWorld (fs w) (trace w ++ evs).

(** What one iteration of the loop at index [i] logs after its tokenizer
    call. *)
Definition progress_events (i n : Z) : list event :=
  if i `mod` 500 =? 0
  then [EvPrint (progress_line i n); EvCudaEmptyCache; EvGcCollect]
  else [].

(** The tokenizer's contract under [truncation=True, padding='max_length']:
    on [text] it returns both fields, each of exactly [m] entries. *)
Definition pads_to (tokenizer : Tokenizer) (m : Z) (text : string) : Prop :=
  ∃ (encoding : BatchEncoding) ids mask,
    tokenizer text m = Ok encoding ∧
    encoding !! "input_ids" = Some ids ∧
    encoding !! "attention_mask" = Some mask ∧
    Z.of_nat (length ids) = m ∧ Z.of_nat (length mask) = m.

(** [s] is the field [key] of the tokenizer's output on [text]. *)
Definition field_of (tokenizer : Tokenizer) (m : Z) (key text : string)
    (s : list Z) : Prop :=
  ∃ encoding : BatchEncoding,
    tokenizer text m = Ok encoding ∧ encoding !! key = Some s.

(** A reference serializer: a header byte, then the bits of the countable
    code of the mapping, one per byte. *)
Fixpoint bits_of (p : positive) : list byte :=
  match p with
  | xH => []
  | xO q => x00 :: bits_of q
  | xI q => x01 :: bits_of q
  end.

Fixpoint of_bits (bs : list byte) : option positive :=
  match bs with
  | [] => Some xH
  | x00 :: rest => xO <$> of_bits rest
  | x01 :: rest => xI <$> of_bits rest
  | _ => None
  end.

Definition ref_dumps (e : Encodings) : list byte := x80 :: bits_of (encode e).

Definition ref_loads (bs : list byte) : option Encodings :=
  match bs with
  | x80 :: rest => of_bits rest ≫= decode
  | _ => None
  end.

(** A tokenizer for examples: every character becomes its code, cut and
    padded with the pad id 1 to [m] entries; the text ["<fail>"] is refused. *)
Definition ref_tokenizer : Tokenizer := λ text m,
  if bool_decide (text = "<fail>") then Raise ValueError
  else
    let codes := (λ c, Z.of_N (N_of_ascii c)) <$> String.list_ascii_of_string text in
    let n := Z.to_nat m in
    Ok {[ "input_ids" := take n codes ++ replicate (n - length codes) 1;
          "attention_mask" :=
            replicate (min n (length codes)) 1 ++
            replicate (n - length codes) 0 ]}.

(** Inputs for worked examples. *)
Definition example_texts : list string := ["ab"; "c"].

Definition example_encodings : Encodings :=
  make_encodings [[97; 98; 1]; [99; 1; 1]] [[1; 1; 0]; [1; 0; 0]].

Definition empty_world : World := mkWorld ∅ [].

Definition cached_world : World :=
  mkWorld {[ "val_longformer.pkl" := File (ref_dumps example_encodings) ]} [].

(** Exact arithmetic, the rounding that changes nothing. *)
Definition exact_rounding : Rounding := λ q, q.

(** The balanced weight [n / (3 * c)] of a class seen [c] times among [n]
    samples, evaluated in binary64. *)
Definition weight_of `{Rounding} (n c : Z) : Qc :=
  fdiv (of_int n) (fmul (of_int 3) (of_int c)).

(** Symbolic tensors for worked examples: a named tensor, a tensor moved to
    a device, or the loss of a weight, logits and labels. *)
Inductive sym_tensor : Type :=
  | Sym (name : string)
  | SymTo (t : sym_tensor) (device : string)
  | SymLoss (weight logits labels : sym_tensor).

Definition sym_model : Model sym_tensor string :=
  mkModel sym_tensor string
    (λ inputs, match inputs !! "input_ids" with
               | Some _ => Ok {[ "loss" := Sym "model_loss";
                                 "logits" := Sym "logits" ]}
               | None => Raise TypeError
               end)
    "cuda:0".

Definition sym_batch : gmap string sym_tensor :=
  {[ "input_ids" := Sym "input_ids"; "attention_mask" := Sym "attention_mask";
     "labels" := Sym "labels" ]}.

(** A loader for worked examples: the weights are the bytes of the file
    [pytorch_model.bin] of the named directory; the base model, which has
    no directory, has no bytes yet. *)
Definition ref_from_pretrained (files : gmap string node) (name : string)
    (num_labels : option Z) : Res (list byte * option Z) :=
  match files !! os_path_join name "pytorch_model.bin" with
  | Some (File weights) => Ok (weights, num_labels)
  | _ => if bool_decide (name = base_model_name) then Ok ([], num_labels)
         else Raise OSError
  end.

Definition checkpoint_world : World :=
  mkWorld {[ "./results_phase2/checkpoint-9580" := Dir 4096;
             "./results_phase2/checkpoint-9580/pytorch_model.bin" := File [x2a];
             "./results_phase2/checkpoint-9580/rng_state.pth" := File [x07] ]}
          [].

(** A split and a prediction for worked examples. *)
Definition example_split : Split :=
  mkSplit ["a"; "b"; "c"; "d"; "e"; "f"] ["g"] [-1; 0; 0; 1; 1; 1] [1].

Definition example_prediction : EvalPrediction :=
  mkEvalPrediction
    [[Z2Qc 1; Z2Qc 5; Z2Qc 2]; [Z2Qc 3; Z2Qc 3; Z2Qc 1]; [Z2Qc 0; Z2Qc 0; Z2Qc 7]]
    [1; 0; 2].

(** ** Data preparation (lines 58-59 and 77-78) *)

Definition train_cache_path : string := "train_longformer.pkl".
Definition val_cache_path : string := "val_longformer.pkl".

Section DataPreparation.

Variable pickle_dumps : Encodings → list byte.
Variable pickle_loads : list byte → option Encodings.

(** Lines 58-59: the two tokenization calls, the training split first. *)
Definition prepare_encodings (s : Split) (tokenizer : Tokenizer)
    : M (Encodings * Encodings) :=
  train_encodings <-
    tokenize_with_cache pickle_dumps pickle_loads (train_texts s) tokenizer
      max_length train_cache_path ;;
  val_encodings <-
    tokenize_with_cache pickle_dumps pickle_loads (val_texts s) tokenizer
      max_length val_cache_path ;;
  ret (train_encodings, val_encodings).

End DataPreparation.

(** Lines 77-78: the two datasets, training first. *)
Definition make_datasets (s : Split) (encodings : Encodings * Encodings)
    : NewsDataset.t * NewsDataset.t :=
  (NewsDataset.__init__ encodings.1 (train_labels s),
   NewsDataset.__init__ encodings.2 (val_labels s)).

(** ** Further notions used by the statements *)

Definition is_print_event (e : event) : bool :=
  match e with EvPrint _ => true | _ => false end.

Definition is_cuda_event (e : event) : bool :=
  match e with EvCudaEmptyCache => true | _ => false end.

Definition is_gc_event (e : event) : bool :=
  match e with EvGcCollect => true | _ => false end.

(** How many events of [evs] satisfy [p]. *)
Definition count_events (p : event → bool) (evs : list event) : Z :=
  Z.of_nat (length (filter (λ e, p e = true) evs)).

(** Every field the tokenizer returns on [text] holds 64-bit values. *)
Definition fits_int64 (tokenizer : Tokenizer) (m : Z) (text : string) : Prop :=
  ∀ key s, field_of tokenizer m key text s → forallb int64_range s = true.

(** The loss carried by an outcome of [compute_loss]. *)
Definition loss_part {T} (r : Res (LossResult T)) : Res T :=
  match r with
  | Ok (LossOnly _ loss) => Ok loss
  | Ok (LossAndOutputs _ loss _) => Ok loss
  | Raise e => Raise e
  end.

(** A cache file that does not unpickle. *)
Definition corrupt_world : World :=
  mkWorld {[ "train_longformer.pkl" := File [x80; x02] ]} [].

(** [item] is what the dataset should hold at index [idx]: the two padded
    fields of the tokenizer's output on the text at [idx], as tensors, and
    the label at [idx] plus one. *)
Definition item_of (tokenizer : Tokenizer) (m : Z) (texts : list string)
    (labels : list Z) (idx : Z) (item : gmap string tensor) : Prop :=
  ∃ text ids mask label,
    texts !! Z.to_nat idx = Some text ∧
    labels !! Z.to_nat idx = Some label ∧
    field_of tokenizer m "input_ids" text ids ∧
    field_of tokenizer m "attention_mask" text mask ∧
    Z.of_nat (length ids) = m ∧
    Z.of_nat (length mask) = m ∧
    item = {[ "input_ids" := Vector ids; "attention_mask" := Vector mask;
              "labels" := Scalar (label + 1) ]}.

(** A small split for worked examples. *)
Definition small_split : Split := mkSplit ["ab"; "c"] ["d"] [0; 1] [-1].

(** A world in which both cache files already exist. *)
Definition both_cached_world : World :=
  mkWorld {[ "train_longformer.pkl" := File (ref_dumps example_encodings);
             "val_longformer.pkl" := File (ref_dumps example_encodings) ]} [].

(** A dataset for worked examples: two items. *)
Definition example_dataset : NewsDataset.t :=
  NewsDataset.__init__ example_encodings [0; 1].

(** A split without any example of class 1, and a balanced split. *)
Definition lopsided_split : Split := mkSplit ["a"; "b"] ["c"] [-1; 0] [1].

Definition balanced_split : Split :=
  mkSplit ["a"; "b"; "c"] [] [1; -1; 0] [].

(** A second symbolic model: the same logits, another loss of its own. *)
Definition sym_model2 : Model sym_tensor string :=
  mkModel sym_tensor string
    (λ inputs, match inputs !! "input_ids" with
               | Some _ => Ok {[ "loss" := Sym "another_loss";
                                 "logits" := Sym "logits";
                                 "hidden_states" := Sym "hidden" ]}
               | None => Raise TypeError
               end)
    "cuda:0".

(** The symbolic loss function and a trainer that uses it. *)
Definition sym_loss (w lg lb : sym_tensor) : Res sym_tensor :=
  Ok (SymLoss w lg lb).

Definition sym_trainer : WeightedTrainer sym_tensor :=
  mkWeightedTrainer _ (Some (Sym "class_weights")).

(** A batch without labels, and the outputs of the first symbolic model. *)
Definition sym_unlabelled_batch : gmap string sym_tensor :=
  {[ "input_ids" := Sym "input_ids" ]}.

Definition sym_outputs : gmap string sym_tensor :=
  {[ "loss" := Sym "model_loss"; "logits" := Sym "logits" ]}.

(** A prediction whose labels all miss the arg-max. *)
Definition wrong_prediction : EvalPrediction :=
  mkEvalPrediction
    [[Z2Qc 1; Z2Qc 5; Z2Qc 2]; [Z2Qc 3; Z2Qc 3; Z2Qc 1]; [Z2Qc 0; Z2Qc 0; Z2Qc 7]]
    [0; 1; 1].

(** A machine without accelerator: moving a model to a device fails. *)
Definition no_accelerator (model : list byte * option Z) (device : string)
    : Res (list byte * option Z) :=
  Raise RuntimeError.

(** A checkpoint without RNG state. *)
Definition plain_checkpoint_world : World :=
  mkWorld {[ "./results_phase2/checkpoint-9580" := Dir 4096;
             "./results_phase2/checkpoint-9580/pytorch_model.bin" := File [x2a] ]}
          [].

(** A checkpoint directory without model state. *)
Definition broken_checkpoint_world : World :=
  mkWorld {[ "./results_phase2/checkpoint-9580" := Dir 4096;
             "./results_phase2/checkpoint-9580/rng_state.pth" := File [x07] ]}
          [].

(** The metrics of the arg-max predictions of [rows] against [labels] given
    in the original label space: what evaluating the predictions means when
    no shift is involved. *)
Definition score_against `{Rounding} (labels : list Z) (rows : list (list Qc))
    : Res (gmap string Qc) :=
  positions ← mapM np_argmax rows;
  let preds := np_sub (Z.of_nat <$> positions) 1 in
  acc ← accuracy_score labels preds;
  f1 ← f1_score_macro labels preds;
  Ok ({[ "accuracy" := acc; "f1" := f1 ]} : gmap string Qc).

(** ** The loading step over a library call with effects *)

Section CheckpointLoaderEffects.

Variable LModel : Type.

(** [LongformerForSequenceClassification.from_pretrained] as a call that may
    itself log and change files, as a load from the hub does. *)
Variable from_pretrained_io : string → option Z → M LModel.

(** Lines 109-115, over such a call. *)
Definition load_checkpoint_io (checkpoint_path : option string) : M LModel :=
  match checkpoint_path with
  | Some path =>
      present <- (if bool_decide (path = "") then ret false
                  else os_path_exists path) ;;
      if present : bool then
        model <- from_pretrained_io path None ;;
        let rng_file := os_path_join path "rng_state.pth" in
        stale <- os_path_exists rng_file ;;
        (if stale : bool then os_remove rng_file else ret tt) ;;;
        ret model
      else from_pretrained_io base_model_name (Some 3)
  | None => from_pretrained_io base_model_name (Some 3)
  end.

End CheckpointLoaderEffects.

(** A loader for worked examples that reports what it loads and, like a load
    from the hub, keeps a copy of the base model it had to fetch. *)
Definition hub_from_pretrained (name : string) (num_labels : option Z)
    : M (list byte * option Z) :=
  print ("loading " +:+ name) ;;;
  model <- from_pretrained_m _ ref_from_pretrained name num_labels ;;
  (if bool_decide (name = base_model_name)
   then write_file "hub_cache.bin" model.1 else ret tt) ;;;
  ret model.

(** * Properties *)

(** ** The tokenization cache *)

Lemma add_events_nil w : add_events w [] = w.
Proof. destruct w; unfold add_events; simpl. by rewrite app_nil_r. Qed.

Lemma add_events_app w evs1 evs2 :
  add_events (add_events w evs1) evs2 = add_events w (evs1 ++ evs2).
Proof. unfold add_events; simpl. by rewrite app_assoc. Qed.

Lemma cache_usable_run path w :
  cache_usable path w = (Ok (cache_present (fs w) path), w).
Proof.
  unfold cache_usable, cache_present, bind, os_path_exists, os_path_getsize, ret.
  destruct (fs w !! path) as [[content|sz]|] eqn:E; simpl; by rewrite ?E.
Qed.

(** One iteration of the loop, as an equation. *)
Lemma tokenize_loop_step tok m n i text rest ids masks w :
  tokenize_loop tok m n i (text :: rest) ids masks w =
  match tok text m with
  | Raise e => (Raise e, add_events w [EvTokenizer text m])
  | Ok encoding =>
      match encoding !! "input_ids" with
      | None => (Raise (KeyError "input_ids"), add_events w [EvTokenizer text m])
      | Some a =>
          match encoding !! "attention_mask" with
          | None => (Raise (KeyError "attention_mask"),
                     add_events w [EvTokenizer text m])
          | Some b =>
              tokenize_loop tok m n (i + 1) rest (ids ++ [a]) (masks ++ [b])
                (add_events w (EvTokenizer text m :: progress_events i n))
          end
      end
  end.
Proof.
  simpl. unfold bind at 1. unfold call_tokenizer, bind at 1, emit, lift; simpl.
  fold (add_events w [EvTokenizer text m]).
  destruct (tok text m) as [encoding|e]; [|done].
  unfold bind at 1, lift, dict_getitem.
  destruct (encoding !! "input_ids") as [a|]; [|done].
  unfold bind at 1.
  destruct (encoding !! "attention_mask") as [b|]; [|done].
  unfold bind at 1, progress_events.
  destruct (i `mod` 500 =? 0).
  - unfold bind, print, torch_cuda_empty_cache, gc_collect, emit; simpl.
    unfold add_events; simpl. by rewrite <- !app_assoc.
  - unfold ret. unfold add_events; simpl. done.
Qed.

(** The loop leaves the files alone and writes nothing; when it completes
    it has called the tokenizer once per text. *)
Lemma tokenize_loop_effects tok m n texts : ∀ i ids masks w r w',
  tokenize_loop tok m n i texts ids masks w = (r, w') →
  ∃ evs, w' = add_events w evs ∧ no_write evs ∧
         (is_Ok r → tokenizer_calls evs = length texts).
Proof.
  induction texts as [|text rest IH]; intros i ids masks w r w' Hrun.
  - simpl in Hrun. unfold ret in Hrun. injection Hrun as <- <-.
    exists []. rewrite add_events_nil. split; [done|]. split; [constructor|done].
  - rewrite tokenize_loop_step in Hrun.
    assert (Hfail : ∀ e, (r, w') = (Raise e, add_events w [EvTokenizer text m]) →
      ∃ evs, w' = add_events w evs ∧ no_write evs ∧
             (is_Ok r → tokenizer_calls evs = length (text :: rest))).
    { intros e [= -> ->]. eexists. split; [done|]. split.
      - by repeat constructor.
      - by intros [? ?]. }
    destruct (tok text m) as [encoding|e]; [|by eapply Hfail].
    destruct (encoding !! "input_ids") as [a|]; [|by eapply Hfail].
    destruct (encoding !! "attention_mask") as [b|]; [|by eapply Hfail].
    apply IH in Hrun as (evs & -> & Hnw & Hcalls).
    rewrite add_events_app. eexists. split; [done|]. split.
    + apply Forall_app. split; [|done]. constructor; [done|].
      unfold progress_events. destruct (_ =? _); by repeat constructor.
    + intros Hok. specialize (Hcalls Hok).
      unfold tokenizer_calls in *. simpl.
      rewrite filter_app, length_app, Hcalls.
      unfold progress_events. by destruct (_ =? _).
Qed.

(** Under the tokenizer's contract the loop completes, and extends both
    arrays by one padded sequence per text, in order. *)
Lemma tokenize_loop_ok tok m n texts :
  Forall (pads_to tok m) texts →
  ∀ i ids masks w,
  ∃ new_ids new_masks evs,
    tokenize_loop tok m n i texts ids masks w =
      (Ok (ids ++ new_ids, masks ++ new_masks), add_events w evs) ∧
    Forall2 (field_of tok m "input_ids") texts new_ids ∧
    Forall2 (field_of tok m "attention_mask") texts new_masks ∧
    Forall (λ s, Z.of_nat (length s) = m) new_ids ∧
    Forall (λ s, Z.of_nat (length s) = m) new_masks.
Proof.
  induction 1 as [|text rest Htext _ IH]; intros i ids masks w.
  - exists [], [], []. simpl. unfold ret.
    rewrite !app_nil_r, add_events_nil. by repeat split; constructor.
  - destruct Htext as (encoding & a & b & Htok & Ha & Hb & Hla & Hlb).
    rewrite tokenize_loop_step, Htok, Ha, Hb.
    destruct (IH (i + 1) (ids ++ [a]) (masks ++ [b])
                 (add_events w (EvTokenizer text m :: progress_events i n)))
      as (new_ids & new_masks & evs & -> & Hids & Hmasks & Hli & Hlm).
    exists (a :: new_ids), (b :: new_masks),
      ((EvTokenizer text m :: progress_events i n) ++ evs).
    rewrite add_events_app, <- !app_assoc. simpl.
    split; [done|].
    repeat split; constructor; try done; by exists encoding.
Qed.

Section TokenizeWithCacheProperties.

Variable pickle_dumps : Encodings → list byte.
Variable pickle_loads : list byte → option Encodings.

Abbreviation tokenize := (tokenize_with_cache pickle_dumps pickle_loads).

(** A usable cache is read and returned, whatever the other arguments. *)
Lemma tokenize_with_cache_hit texts tok m path w :
  cache_present (fs w) path = true →
  tokenize texts tok m path w =
  match fs w !! path with
  | Some (File content) =>
      (match pickle_loads content with
       | Some obj => Ok obj
       | None => Raise UnpicklingError
       end, add_events w [EvRead path])
  | _ => (Raise (IsADirectoryError path), w)
  end.
Proof.
  intros Hhit. unfold tokenize_with_cache, bind at 1.
  rewrite cache_usable_run, Hhit. unfold bind, read_file, pickle_load.
  unfold cache_present in Hhit.
  destruct (fs w !! path) as [[content|sz]|]; [|done..].
  unfold add_events. by destruct (pickle_loads content).
Qed.

(** Without a usable cache, the loop runs and then the file is written. *)
Lemma tokenize_with_cache_miss texts tok m path w :
  cache_present (fs w) path = false →
  tokenize texts tok m path w =
  match tokenize_loop tok m (Z.of_nat (length texts)) 0 texts [] [] w with
  | (Ok (input_ids, attention_mask), w') =>
      let encodings := make_encodings input_ids attention_mask in
      match fs w' !! path with
      | Some (Dir _) => (Raise (IsADirectoryError path), w')
      | _ => (Ok encodings,
              mkWorld (<[path := File (pickle_dumps encodings)]> (fs w'))
                      (trace w' ++ [EvWrite path]))
      end
  | (Raise e, w') => (Raise e, w')
  end.
Proof.
  intros Hmiss. unfold tokenize_with_cache, bind at 1.
  rewrite cache_usable_run, Hmiss. unfold bind at 1.
  destruct (tokenize_loop _ _ _ _ _ _ _ w) as [[[input_ids attention_mask]|e] w'];
    [|done].
  unfold bind, write_file, ret.
  by destruct (fs w' !! path) as [[content|sz]|].
Qed.

(** C9 (cache-hit noninterference).  When the cache path exists and is
    non-empty, two calls against the same world return the same outcome
    whatever their texts, tokenizers and maximal lengths; more generally the
    returned value is determined by what the file system holds at the cache
    path. *)
Theorem cache_hit_noninterference texts1 tok1 m1 texts2 tok2 m2 path w w' :
  cache_present (fs w) path = true →
  fs w' !! path = fs w !! path →
  tokenize texts1 tok1 m1 path w = tokenize texts2 tok2 m2 path w ∧
  (tokenize texts1 tok1 m1 path w).1 = (tokenize texts2 tok2 m2 path w').1.
Proof.
  intros Hhit Hsame.
  assert (Hhit' : cache_present (fs w') path = true).
  { unfold cache_present in *. by rewrite Hsame. }
  rewrite !tokenize_with_cache_hit, Hsame by done.
  split; [done|]. by destruct (fs w !! path) as [[content|sz]|].
Qed.

(** C2 (cache-miss tokenization).  When the cache path holds nothing, or an
    empty file, and the tokenizer honours its padding contract on every text,
    the call returns a mapping with exactly the keys [input_ids] and
    [attention_mask]; the two arrays have one entry per text, in order, each
    of exactly [m] elements; and the mapping has been serialized to the cache
    path when the call returns. *)
Theorem cache_miss_tokenization texts tok m path w :
  fs w !! path = None ∨ fs w !! path = Some (File []) →
  Forall (pads_to tok m) texts →
  ∃ (enc : Encodings) input_ids attention_mask w',
    tokenize texts tok m path w = (Ok enc, w') ∧
    dom enc = {[ "input_ids"; "attention_mask" ]} ∧
    enc !! "input_ids" = Some input_ids ∧
    enc !! "attention_mask" = Some attention_mask ∧
    length input_ids = length texts ∧
    length attention_mask = length texts ∧
    Forall2 (field_of tok m "input_ids") texts input_ids ∧
    Forall2 (field_of tok m "attention_mask") texts attention_mask ∧
    Forall (λ s, Z.of_nat (length s) = m) input_ids ∧
    Forall (λ s, Z.of_nat (length s) = m) attention_mask ∧
    fs w' = <[path := File (pickle_dumps enc)]> (fs w).
Proof.
  intros Hfree Hpad.
  assert (Hmiss : cache_present (fs w) path = false).
  { unfold cache_present. by destruct Hfree as [-> | ->]. }
  rewrite tokenize_with_cache_miss by done.
  destruct (tokenize_loop_ok tok m (Z.of_nat (length texts)) texts Hpad 0 [] [] w)
    as (ids & masks & evs & -> & Hids & Hmasks & Hli & Hlm).
  simpl.
  exists (make_encodings ids masks), ids, masks.
  assert (Hdom : dom (make_encodings ids masks) =
                 ({[ "input_ids"; "attention_mask" ]} : gset string)).
  { unfold make_encodings. by rewrite dom_insert_L, dom_singleton_L. }
  apply Forall2_length in Hids as Hnids, Hmasks as Hnmasks.
  assert (Hwrite : ∃ w', 
    match fs w !! path with
    | Some (Dir _) => (Raise (IsADirectoryError path), add_events w evs)
    | _ => (Ok (make_encodings ids masks),
            mkWorld (<[path := File (pickle_dumps (make_encodings ids masks))]>
                       (fs w))
                    (trace w ++ evs ++ [EvWrite path]))
    end = (Ok (make_encodings ids masks), w') ∧
    fs w' = <[path := File (pickle_dumps (make_encodings ids masks))]> (fs w)).
  { destruct Hfree as [-> | ->]; by eexists. }
  destruct Hwrite as (w' & Hrun & Hfs). exists w'.
  rewrite <- (app_assoc (trace w)). by rewrite Hrun.
Qed.

(** C8 (the cache is written once, at the end).  Without a usable cache: an
    execution that fails inside the per-text loop fails as a whole, leaves
    every file as it was and logs no write; an execution that succeeds has
    written exactly once, as its last action, after one tokenizer call per
    text. *)
Theorem cache_write_atomicity texts tok m path w :
  cache_present (fs w) path = false →
  (∀ e w',
     tokenize_loop tok m (Z.of_nat (length texts)) 0 texts [] [] w
       = (Raise e, w') →
     tokenize texts tok m path w = (Raise e, w') ∧
     fs w' = fs w ∧
     ∃ evs, trace w' = trace w ++ evs ∧ no_write evs) ∧
  (∀ enc w',
     tokenize texts tok m path w = (Ok enc, w') →
     ∃ evs, trace w' = trace w ++ evs ++ [EvWrite path] ∧
            no_write evs ∧ tokenizer_calls evs = length texts).
Proof.
  intros Hmiss. split.
  - intros e w' Hloop. rewrite tokenize_with_cache_miss, Hloop by done.
    apply tokenize_loop_effects in Hloop as (evs & -> & Hnw & _).
    split; [done|]. split; [done|]. by exists evs.
  - intros enc w'. rewrite tokenize_with_cache_miss by done.
    destruct (tokenize_loop _ _ _ _ _ _ _ w) as [[[ids masks]|e] w1] eqn:Hloop;
      [|done].
    apply tokenize_loop_effects in Hloop as (evs & -> & Hnw & Hcalls).
    simpl. intros Hrun. exists evs.
    assert (w' = mkWorld (fs w') (trace w ++ evs ++ [EvWrite path])) as ->.
    { destruct (fs w !! path) as [[content|sz]|]; try done;
        injection Hrun as _ <-; simpl; by rewrite <- app_assoc. }
    split; [done|]. split; [done|]. apply Hcalls. by eexists.
Qed.

Hypothesis pickle_roundtrip : ∀ e, pickle_loads (pickle_dumps e) = Some e.
Hypothesis pickle_nonempty : ∀ e, pickle_dumps e ≠ [].

(** C1 (cache idempotence).  After a call that returned [enc], a second call
    with the same arguments returns [enc] again; it only reads the cache
    file: no file changes, the tokenizer is not called and nothing is
    written.  When the first call found no usable cache, the file it left at
    the cache path is the serialization of [enc]. *)
Theorem cache_idempotence texts tok m path w enc w1 :
  tokenize texts tok m path w = (Ok enc, w1) →
  tokenize texts tok m path w1 = (Ok enc, add_events w1 [EvRead path]) ∧
  tokenizer_calls [EvRead path] = 0%nat ∧
  no_write [EvRead path] ∧
  (cache_present (fs w) path = false →
   fs w1 !! path = Some (File (pickle_dumps enc))).
Proof.
  intros Hfirst.
  split; [|split; [done|split; [by repeat constructor|]]].
  - destruct (cache_present (fs w) path) eqn:Hhit.
    + rewrite tokenize_with_cache_hit in Hfirst by done.
      destruct (fs w !! path) as [[content|sz]|] eqn:Hfile; try done.
      destruct (pickle_loads content) as [obj|] eqn:Hload; [|done].
      injection Hfirst as -> <-.
      rewrite tokenize_with_cache_hit by done. simpl.
      by rewrite Hfile, Hload.
    + rewrite tokenize_with_cache_miss in Hfirst by done.
      destruct (tokenize_loop _ _ _ _ _ _ _ w) as [[[ids masks]|e] w'];
        [|done].
      simpl in Hfirst.
      assert (fs w1 !! path = Some (File (pickle_dumps enc))) as Hfile.
      { destruct (fs w' !! path) as [[content|sz]|]; try done;
          injection Hfirst as <- <-; simpl; by rewrite lookup_insert_eq. }
      assert (cache_present (fs w1) path = true) as Hhit1.
      { unfold cache_present. rewrite Hfile.
        specialize (pickle_nonempty enc).
        destruct (pickle_dumps enc) as [|b bs]; [done|].
        apply Z.ltb_lt. rewrite length_cons. lia. }
      rewrite tokenize_with_cache_hit by done.
      by rewrite Hfile, pickle_roundtrip.
  - intros Hmiss. rewrite tokenize_with_cache_miss in Hfirst by done.
    destruct (tokenize_loop _ _ _ _ _ _ _ w) as [[[ids masks]|e] w'];
      [|done].
    simpl in Hfirst.
    destruct (fs w' !! path) as [[content|sz]|]; try done;
      injection Hfirst as <- <-; simpl; by rewrite lookup_insert_eq.
Qed.

End TokenizeWithCacheProperties.

(** The reference serializer round-trips and never writes an empty file. *)
Lemma of_bits_bits_of p : of_bits (bits_of p) = Some p.
Proof. induction p as [q IH|q IH|]; simpl; by rewrite ?IH. Qed.

Lemma ref_roundtrip e : ref_loads (ref_dumps e) = Some e.
Proof.
  unfold ref_loads, ref_dumps. rewrite of_bits_bits_of. simpl.
  apply decode_encode.
Qed.

Lemma ref_nonempty e : ref_dumps e ≠ [].
Proof. done. Qed.

Lemma cache_hit_noninterference_witness :
  tokenize_with_cache ref_dumps ref_loads example_texts ref_tokenizer 3
    "val_longformer.pkl" cached_world =
  tokenize_with_cache ref_dumps ref_loads ["<fail>"] ref_tokenizer max_length
    "val_longformer.pkl" cached_world ∧
  (tokenize_with_cache ref_dumps ref_loads example_texts ref_tokenizer 3
     "val_longformer.pkl" cached_world).1 =
  (tokenize_with_cache ref_dumps ref_loads ["<fail>"] ref_tokenizer max_length
     "val_longformer.pkl" (add_events cached_world [EvGcCollect])).1.
Proof.
  apply cache_hit_noninterference; reflexivity.
Defined.

Lemma cache_miss_tokenization_witness :
  ∃ (enc : Encodings) input_ids attention_mask w',
    tokenize_with_cache ref_dumps ref_loads example_texts ref_tokenizer 3
      "train_longformer.pkl" empty_world = (Ok enc, w') ∧
    dom enc = {[ "input_ids"; "attention_mask" ]} ∧
    enc !! "input_ids" = Some input_ids ∧
    enc !! "attention_mask" = Some attention_mask ∧
    length input_ids = length example_texts ∧
    length attention_mask = length example_texts ∧
    Forall2 (field_of ref_tokenizer 3 "input_ids") example_texts input_ids ∧
    Forall2 (field_of ref_tokenizer 3 "attention_mask") example_texts
      attention_mask ∧
    Forall (λ s, Z.of_nat (length s) = 3) input_ids ∧
    Forall (λ s, Z.of_nat (length s) = 3) attention_mask ∧
    fs w' = <[ "train_longformer.pkl" := File (ref_dumps enc)]> (fs empty_world).
Proof.
  apply cache_miss_tokenization.
  - left. reflexivity.
  - repeat constructor.
    + exists {[ "input_ids" := [97; 98; 1]; "attention_mask" := [1; 1; 0] ]},
        [97; 98; 1], [1; 1; 0].
      repeat split; reflexivity.
    + exists {[ "input_ids" := [99; 1; 1]; "attention_mask" := [1; 0; 0] ]},
        [99; 1; 1], [1; 0; 0].
      repeat split; reflexivity.
Defined.

Lemma cache_write_atomicity_witness :
  (tokenize_with_cache ref_dumps ref_loads ["ab"; "<fail>"] ref_tokenizer 3
     "train_longformer.pkl" empty_world =
   (Raise ValueError,
    add_events empty_world
      [EvTokenizer "ab" 3; EvPrint "[0/2] Tokenized..."; EvCudaEmptyCache;
       EvGcCollect; EvTokenizer "<fail>" 3]) ∧
   fs (add_events empty_world
         [EvTokenizer "ab" 3; EvPrint "[0/2] Tokenized..."; EvCudaEmptyCache;
          EvGcCollect; EvTokenizer "<fail>" 3]) = fs empty_world ∧
   ∃ evs,
     trace (add_events empty_world
              [EvTokenizer "ab" 3; EvPrint "[0/2] Tokenized...";
               EvCudaEmptyCache; EvGcCollect; EvTokenizer "<fail>" 3]) =
     trace empty_world ++ evs ∧ no_write evs) ∧
  (∃ evs,
     trace (tokenize_with_cache ref_dumps ref_loads example_texts ref_tokenizer
              3 "train_longformer.pkl" empty_world).2 =
     trace empty_world ++ evs ++ [EvWrite "train_longformer.pkl"] ∧
     no_write evs ∧ tokenizer_calls evs = length example_texts).
Proof.
  split.
  - apply (proj1 (cache_write_atomicity ref_dumps ref_loads
                    ["ab"; "<fail>"] ref_tokenizer 3 "train_longformer.pkl"
                    empty_world eq_refl)).
    reflexivity.
  - apply (proj2 (cache_write_atomicity ref_dumps ref_loads
                    example_texts ref_tokenizer 3 "train_longformer.pkl"
                    empty_world eq_refl) example_encodings).
    reflexivity.
Defined.

Lemma cache_idempotence_witness :
  tokenize_with_cache ref_dumps ref_loads example_texts ref_tokenizer 3
    "train_longformer.pkl"
    (tokenize_with_cache ref_dumps ref_loads example_texts ref_tokenizer 3
       "train_longformer.pkl" empty_world).2 =
  (Ok example_encodings,
   add_events
     (tokenize_with_cache ref_dumps ref_loads example_texts ref_tokenizer 3
        "train_longformer.pkl" empty_world).2
     [EvRead "train_longformer.pkl"]) ∧
  tokenizer_calls [EvRead "train_longformer.pkl"] = 0%nat ∧
  no_write [EvRead "train_longformer.pkl"] ∧
  (cache_present (fs empty_world) "train_longformer.pkl" = false →
   fs (tokenize_with_cache ref_dumps ref_loads example_texts ref_tokenizer 3
         "train_longformer.pkl" empty_world).2 !! "train_longformer.pkl" =
   Some (File (ref_dumps example_encodings))).
Proof.
  apply (cache_idempotence ref_dumps ref_loads ref_roundtrip ref_nonempty
           example_texts ref_tokenizer 3 "train_longformer.pkl" empty_world).
  reflexivity.
Defined.

(** ** The dataset adapter *)

Lemma list_getitem_ok_inv {A} (l : list A) idx a :
  list_getitem l idx = Ok a →
  - Z.of_nat (length l) ≤ idx < Z.of_nat (length l).
Proof.
  unfold list_getitem.
  destruct (idx <? 0) eqn:Hneg;
    destruct (_ && _) eqn:Hin; try done; intros _; lia.
Qed.

Lemma list_getitem_nonneg {A} (l : list A) idx :
  0 ≤ idx →
  list_getitem l idx =
  match l !! Z.to_nat idx with Some a => Ok a | None => Raise IndexError end.
Proof.
  intros Hidx. unfold list_getitem.
  destruct (idx <? 0) eqn:Hneg; [lia|].
  destruct (_ && _) eqn:Hin; [done|].
  rewrite lookup_ge_None_2; [done|]. lia.
Qed.

Lemma list_getitem_beyond {A} (l : list A) idx :
  Z.of_nat (length l) ≤ idx → list_getitem l idx = Raise IndexError.
Proof.
  intros Hidx. rewrite list_getitem_nonneg by lia.
  rewrite lookup_ge_None_2; [done|]. lia.
Qed.

Lemma res_bind_ok_inv {A B} (r : Res A) (k : A → Res B) b :
  r ≫= k = Ok b → ∃ a, r = Ok a ∧ k a = Ok b.
Proof. destruct r as [a|e]; [|done]. intros Hk. by exists a. Qed.

Lemma dict_getitem_ok_inv {V} (d : gmap string V) key v :
  dict_getitem d key = Ok v → d !! key = Some v.
Proof. unfold dict_getitem. destruct (d !! key); by intros [= <-]. Qed.

Lemma torch_tensor_list_ok_inv l t : torch_tensor_list l = Ok t → t = Vector l.
Proof. unfold torch_tensor_list. destruct (forallb _ _); by intros [= <-]. Qed.

Lemma torch_tensor_int_ok_inv z t : torch_tensor_int z = Ok t → t = Scalar z.
Proof. unfold torch_tensor_int. destruct (int64_range _); by intros [= <-]. Qed.

(** What a successful [__getitem__] has read. *)
Lemma getitem_ok_inv (self : NewsDataset.t) idx item :
  NewsDataset.__getitem__ self idx = Ok item →
  ∃ all_ids all_masks ids mask label,
    NewsDataset.encodings self !! "input_ids" = Some all_ids ∧
    NewsDataset.encodings self !! "attention_mask" = Some all_masks ∧
    list_getitem all_ids idx = Ok ids ∧
    list_getitem all_masks idx = Ok mask ∧
    list_getitem (NewsDataset.labels self) idx = Ok label ∧
    item = {[ "input_ids" := Vector ids; "attention_mask" := Vector mask;
              "labels" := Scalar (label + 1) ]}.
Proof.
  unfold NewsDataset.__getitem__. intros H.
  apply res_bind_ok_inv in H as (all_ids & Hall_ids%dict_getitem_ok_inv & H).
  apply res_bind_ok_inv in H as (ids & Hids & H).
  apply res_bind_ok_inv in H as (t1 & ->%torch_tensor_list_ok_inv & H).
  apply res_bind_ok_inv in H as (all_masks & Hall_masks%dict_getitem_ok_inv & H).
  apply res_bind_ok_inv in H as (mask & Hmask & H).
  apply res_bind_ok_inv in H as (t2 & ->%torch_tensor_list_ok_inv & H).
  apply res_bind_ok_inv in H as (label & Hlabel & H).
  apply res_bind_ok_inv in H as (t3 & ->%torch_tensor_int_ok_inv & H).
  injection H as <-. by exists all_ids, all_masks, ids, mask, label.
Qed.

(** C10 (indexing safety of the dataset adapter).  [__len__] is the number
    of labels, whatever the encodings.  If [__getitem__] succeeds at every
    index from 0 to [__len__ - 1], then (unless there are no labels at all)
    both encoding arrays are present and at least as long as the label
    list.  And if one of the two arrays is shorter than the label list, some
    index in that range makes [__getitem__] raise. *)
Theorem dataset_indexing_safety (enc : Encodings) (labels : list Z) :
  (∀ enc', NewsDataset.__len__ (NewsDataset.__init__ enc' labels) =
           Z.of_nat (length labels)) ∧
  ((∀ idx, 0 ≤ idx < NewsDataset.__len__ (NewsDataset.__init__ enc labels) →
           is_Ok (NewsDataset.__getitem__ (NewsDataset.__init__ enc labels) idx)) →
   labels = [] ∨
   ∃ all_ids all_masks,
     enc !! "input_ids" = Some all_ids ∧
     enc !! "attention_mask" = Some all_masks ∧
     (length labels ≤ length all_ids)%nat ∧
     (length labels ≤ length all_masks)%nat) ∧
  (∀ key arr,
     key = "input_ids" ∨ key = "attention_mask" →
     enc !! key = Some arr →
     (length arr < length labels)%nat →
     ∃ idx e,
       0 ≤ idx < NewsDataset.__len__ (NewsDataset.__init__ enc labels) ∧
       NewsDataset.__getitem__ (NewsDataset.__init__ enc labels) idx = Raise e).
Proof.
  set (ds := NewsDataset.__init__ enc labels).
  assert (Hshort : ∀ key arr,
    key = "input_ids" ∨ key = "attention_mask" →
    enc !! key = Some arr →
    ¬ is_Ok (NewsDataset.__getitem__ ds (Z.of_nat (length arr)))).
  { intros key arr Hkey Harr [item Hitem].
    apply getitem_ok_inv in Hitem
      as (all_ids & all_masks & ids & mask & label &
          Hall_ids & Hall_masks & Hids & Hmask & _).
    simpl in Hall_ids, Hall_masks.
    destruct Hkey as [-> | ->].
    - rewrite Harr in Hall_ids. injection Hall_ids as <-.
      by rewrite list_getitem_beyond in Hids.
    - rewrite Harr in Hall_masks. injection Hall_masks as <-.
      by rewrite list_getitem_beyond in Hmask. }
  split; [done|]. split.
  - intros Hall. destruct labels as [|l0 labels']; [by left|right].
    destruct (Hall 0) as [item Hitem].
    { unfold NewsDataset.__len__. simpl. lia. }
    apply getitem_ok_inv in Hitem
      as (all_ids & all_masks & _ & _ & _ & Hall_ids & Hall_masks & _).
    simpl in Hall_ids, Hall_masks.
    exists all_ids, all_masks. split; [done|]. split; [done|].
    split; apply Nat.le_ngt; intros Hlt.
    + apply (Hshort "input_ids" all_ids); [by left|done|].
      apply Hall. unfold NewsDataset.__len__. simpl in *. lia.
    + apply (Hshort "attention_mask" all_masks); [by right|done|].
      apply Hall. unfold NewsDataset.__len__. simpl in *. lia.
  - intros key arr Hkey Harr Hlt.
    exists (Z.of_nat (length arr)).
    destruct (NewsDataset.__getitem__ ds (Z.of_nat (length arr)))
      as [item|e] eqn:Hget.
    + destruct (Hshort key arr Hkey Harr). by exists item.
    + exists e. split; [|done]. unfold NewsDataset.__len__. simpl. lia.
Qed.

Lemma dataset_indexing_safety_witness :
  (∃ idx e,
     0 ≤ idx < NewsDataset.__len__
                 (NewsDataset.__init__
                    (make_encodings [[97; 98; 1]] [[1; 1; 0]; [1; 0; 0]])
                    [0; 1]) ∧
     NewsDataset.__getitem__
       (NewsDataset.__init__
          (make_encodings [[97; 98; 1]] [[1; 1; 0]; [1; 0; 0]]) [0; 1]) idx
     = Raise e) ∧
  ([0; 1] = [] ∨
   ∃ all_ids all_masks,
     example_encodings !! "input_ids" = Some all_ids ∧
     example_encodings !! "attention_mask" = Some all_masks ∧
     (length [0; 1] ≤ length all_ids)%nat ∧
     (length [0; 1] ≤ length all_masks)%nat).
Proof.
  split.
  - apply (proj2 (proj2 (dataset_indexing_safety
             (make_encodings [[97; 98; 1]] [[1; 1; 0]; [1; 0; 0]]) [0; 1]))
             "input_ids" [[97; 98; 1]]).
    + left. reflexivity.
    + reflexivity.
    + simpl. lia.
  - apply (proj1 (proj2 (dataset_indexing_safety example_encodings [0; 1]))).
    intros idx Hidx.
    assert (idx = 0 ∨ idx = 1) as [-> | ->]
      by (unfold NewsDataset.__len__ in Hidx; simpl in Hidx; lia);
      eexists; reflexivity.
Defined.

(** When both arrays are long enough and every value fits a 64-bit integer,
    every index in range yields an item. *)
Lemma getitem_in_range_ok (enc : Encodings) (labels : list Z) all_ids all_masks idx :
  enc !! "input_ids" = Some all_ids →
  enc !! "attention_mask" = Some all_masks →
  (length labels ≤ length all_ids)%nat →
  (length labels ≤ length all_masks)%nat →
  Forall (λ s, forallb int64_range s = true) all_ids →
  Forall (λ s, forallb int64_range s = true) all_masks →
  Forall (λ l, int64_range (l + 1) = true) labels →
  0 ≤ idx < NewsDataset.__len__ (NewsDataset.__init__ enc labels) →
  is_Ok (NewsDataset.__getitem__ (NewsDataset.__init__ enc labels) idx).
Proof.
  intros Hids Hmasks Hlen1 Hlen2 Hr1 Hr2 Hr3 Hidx.
  unfold NewsDataset.__len__ in Hidx. simpl in Hidx.
  unfold NewsDataset.__getitem__, dict_getitem. simpl.
  rewrite Hids, Hmasks. simpl.
  rewrite !list_getitem_nonneg by lia.
  destruct (lookup_lt_is_Some_2 all_ids (Z.to_nat idx)) as [ids Hi]; [lia|].
  destruct (lookup_lt_is_Some_2 all_masks (Z.to_nat idx)) as [mask Hm]; [lia|].
  destruct (lookup_lt_is_Some_2 labels (Z.to_nat idx)) as [label Hl]; [lia|].
  rewrite Hi, Hm, Hl. simpl.
  unfold torch_tensor_list, torch_tensor_int.
  rewrite (proj1 (Forall_lookup _ _) Hr1 _ _ Hi). simpl.
  rewrite (proj1 (Forall_lookup _ _) Hr2 _ _ Hm). simpl.
  rewrite (proj1 (Forall_lookup _ _) Hr3 _ _ Hl). simpl.
  by eexists.
Qed.

(** ** Binary64 arithmetic *)

Lemma Z2Qc_le z1 z2 : z1 ≤ z2 → (Z2Qc z1 ≤ Z2Qc z2)%Qc.
Proof.
  intros Hle. change (Qred (inject_Z z1) <= Qred (inject_Z z2))%Q.
  rewrite !Qred_correct. by rewrite <- Zle_Qle.
Qed.

Lemma Z2Qc_lt z1 z2 : z1 < z2 → (Z2Qc z1 < Z2Qc z2)%Qc.
Proof.
  intros Hlt. change (Qred (inject_Z z1) < Qred (inject_Z z2))%Q.
  rewrite !Qred_correct. by rewrite <- Zlt_Qlt.
Qed.

Lemma Z2Qc_mul z1 z2 : (Z2Qc z1 * Z2Qc z2)%Qc = Z2Qc (z1 * z2).
Proof.
  apply Qc_is_canon.
  change (Qred (Qred (inject_Z z1) * Qred (inject_Z z2)) == Qred (inject_Z (z1 * z2)))%Q.
  rewrite !Qred_correct. by rewrite inject_Z_mult.
Qed.

Lemma Z2Qc_add z1 z2 : (Z2Qc z1 + Z2Qc z2)%Qc = Z2Qc (z1 + z2).
Proof.
  apply Qc_is_canon.
  change (Qred (Qred (inject_Z z1) + Qred (inject_Z z2)) == Qred (inject_Z (z1 + z2)))%Q.
  rewrite !Qred_correct. by rewrite inject_Z_plus.
Qed.

Lemma Qcinv_le_contravar (p q : Qc) : (0 < p → p ≤ q → / q ≤ / p)%Qc.
Proof.
  intros Hp Hpq.
  assert (Hq : (0 < q)%Qc) by (eapply Qclt_le_trans; eauto).
  apply (Qcmult_le_mono_pos_r _ _ (p * q)%Qc).
  - by apply Qcmult_pos_pos.
  - assert (p ≠ 0%Qc) by (by apply not_eq_sym, Qclt_not_eq).
    assert (q ≠ 0%Qc) by (by apply not_eq_sym, Qclt_not_eq).
    replace (/ q * (p * q))%Qc with p by (field; done).
    replace (/ p * (p * q))%Qc with q by (field; done).
    done.
Qed.

Lemma Qcdiv_le_compat_l (n p q : Qc) :
  (0 ≤ n → 0 < p → p ≤ q → n / q ≤ n / p)%Qc.
Proof.
  intros Hn Hp Hpq. unfold Qcdiv.
  apply Qcmult_le_mono_nonneg_l; [done|]. by apply Qcinv_le_contravar.
Qed.

Lemma Qcdiv_le_compat_r (n n' d : Qc) :
  (0 < d → n ≤ n' → n / d ≤ n' / d)%Qc.
Proof.
  intros Hd Hn. unfold Qcdiv.
  apply Qcmult_le_mono_nonneg_r; [|done].
  apply Qclt_le_weak. by apply Qcinv_pos.
Qed.

Lemma Qcdiv_diag (q : Qc) : q ≠ 0%Qc → (q / q)%Qc = 1%Qc.
Proof. intros Hq. by field. Qed.

Lemma exact_rounding_laws : @RoundingLaws exact_rounding.
Proof.
  split; unfold round64, exact_rounding; try done.
Qed.

Section FloatFacts.
Context `{RoundingLaws}.

Lemma of_int_small z : - 2 ^ 53 ≤ z ≤ 2 ^ 53 → of_int z = Z2Qc z.
Proof. apply round64_int. Qed.

Lemma of_int_mono z1 z2 : z1 ≤ z2 → (of_int z1 ≤ of_int z2)%Qc.
Proof. intros Hle. by apply round64_mono, Z2Qc_le. Qed.

Lemma of_int_fixed z : round64 (of_int z) = of_int z.
Proof. apply round64_idem. Qed.

Lemma of_int_ge_1 z : 1 ≤ z → (1 ≤ of_int z)%Qc.
Proof.
  intros Hz. change 1%Qc with (Z2Qc 1).
  rewrite <- (of_int_small 1) by done. by apply of_int_mono.
Qed.

Lemma of_int_pos z : 1 ≤ z → (0 < of_int z)%Qc.
Proof. intros Hz. eapply Qclt_le_trans; [|by apply of_int_ge_1]. done. Qed.

Lemma round64_quadruple q : round64 (Z2Qc 4 * q)%Qc = (Z2Qc 4 * round64 q)%Qc.
Proof.
  replace (Z2Qc 4 * q)%Qc with (Z2Qc 2 * (Z2Qc 2 * q))%Qc
    by (rewrite Qcmult_assoc; by rewrite Z2Qc_mul).
  rewrite !round64_double, Qcmult_assoc. by rewrite Z2Qc_mul.
Qed.

Lemma round64_quarter : round64 (/ Z2Qc 4)%Qc = (/ Z2Qc 4)%Qc.
Proof.
  assert (Hfour : (Z2Qc 4 * round64 (/ Z2Qc 4) = 1)%Qc).
  { rewrite <- round64_quadruple.
    rewrite Qcmult_inv_r by done. change 1%Qc with (Z2Qc 1).
    by apply round64_int. }
  rewrite <- (Qcmult_1_l (round64 _)).
  rewrite <- (Qcmult_inv_l (Z2Qc 4)) at 1 by done.
  rewrite <- Qcmult_assoc, Hfour. by rewrite Qcmult_1_r.
Qed.

(** The product [3.0 * x] for a float [x ≥ 1]. *)
Lemma fmul_3_bounds x :
  round64 x = x → (1 ≤ x)%Qc →
  (Z2Qc 3 ≤ fmul (of_int 3) x)%Qc ∧ (fmul (of_int 3) x ≤ Z2Qc 4 * x)%Qc.
Proof.
  intros Hfix Hx. unfold fmul. rewrite (of_int_small 3) by done.
  assert (Hx0 : (0 ≤ x)%Qc) by (eapply Qcle_trans; [|exact Hx]; done).
  split.
  - rewrite <- (round64_int 3) at 1 by done. apply round64_mono.
    rewrite <- (Qcmult_1_r (Z2Qc 3)) at 1.
    by apply Qcmult_le_mono_nonneg_l.
  - rewrite <- Hfix at 2. rewrite <- round64_quadruple. apply round64_mono.
    apply Qcmult_le_mono_nonneg_r; [done|]. by apply Z2Qc_le.
Qed.

Lemma fmul_3_mono x y :
  (0 ≤ x)%Qc → (x ≤ y)%Qc → (fmul (of_int 3) x ≤ fmul (of_int 3) y)%Qc.
Proof.
  intros Hx Hxy. unfold fmul. apply round64_mono.
  apply Qcmult_le_mono_nonneg_l; [|done].
  rewrite (of_int_small 3) by done. done.
Qed.

Lemma weight_of_lower n c : 1 ≤ c ≤ n → (/ Z2Qc 4 ≤ weight_of n c)%Qc.
Proof.
  intros [Hc Hn]. unfold weight_of, fdiv.
  rewrite <- round64_quarter. apply round64_mono.
  destruct (fmul_3_bounds (of_int c)) as [Hlo Hhi];
    [apply of_int_fixed|by apply of_int_ge_1|].
  pose proof (of_int_pos c Hc) as Hcpos.
  assert (Hd : (0 < fmul (of_int 3) (of_int c))%Qc).
  { eapply Qclt_le_trans; [|exact Hlo]. done. }
  eapply Qcle_trans; [|apply Qcdiv_le_compat_r; [done|by apply of_int_mono]].
  eapply Qcle_trans; [|apply Qcdiv_le_compat_l; [by apply Qclt_le_weak|done|exact Hhi]].
  assert (of_int c ≠ 0%Qc) by (by apply not_eq_sym, Qclt_not_eq).
  replace (of_int c / (Z2Qc 4 * of_int c))%Qc with (/ Z2Qc 4)%Qc by (by field).
  apply Qcle_refl.
Qed.

Lemma weight_of_pos n c : 1 ≤ c ≤ n → (0 < weight_of n c)%Qc.
Proof.
  intros Hc. eapply Qclt_le_trans; [|by apply weight_of_lower]. done.
Qed.

Lemma weight_of_antitone n c1 c2 :
  1 ≤ c1 → c1 ≤ c2 → 1 ≤ n → (weight_of n c2 ≤ weight_of n c1)%Qc.
Proof.
  intros Hc1 Hc12 Hn. unfold weight_of, fdiv. apply round64_mono.
  destruct (fmul_3_bounds (of_int c1)) as [Hlo _];
    [apply of_int_fixed|by apply of_int_ge_1|].
  apply Qcdiv_le_compat_l.
  - apply Qclt_le_weak. by apply of_int_pos.
  - eapply Qclt_le_trans; [|exact Hlo]. done.
  - apply fmul_3_mono; [|by apply of_int_mono].
    apply Qclt_le_weak. by apply of_int_pos.
Qed.

End FloatFacts.

(** ** Class weights *)

Lemma count_of_cons c v y :
  count_of c (v :: y) = (if decide (v = c) then 1 else 0) + count_of c y.
Proof.
  unfold count_of. rewrite filter_cons.
  destruct (decide (v = c)); simpl; lia.
Qed.

Lemma count_of_nonneg c y : 0 ≤ count_of c y.
Proof. unfold count_of. lia. Qed.

Lemma count_of_pos c y : 0 < count_of c y ↔ c ∈ y.
Proof.
  induction y as [|v y IH].
  - split; [done|by intros ?%elem_of_nil].
  - rewrite count_of_cons, elem_of_cons. pose proof (count_of_nonneg c y).
    destruct (decide (v = c)) as [->|Hne]; [split; [by left|lia]|].
    rewrite Z.add_0_l, IH. split; [by right|]. by intros [->|?].
Qed.

(** Labels drawn from {-1, 0, 1}: the three counts add up to the length. *)
Lemma length_three_classes y :
  Forall (λ l, l ∈ [-1; 0; 1]) y →
  Z.of_nat (length y) = count_of (-1) y + count_of 0 y + count_of 1 y.
Proof.
  induction 1 as [|v y Hv _ IH]; [done|].
  rewrite !count_of_cons, length_cons, Nat2Z.inj_succ, IH.
  repeat (apply elem_of_cons in Hv as [-> | Hv]; [simpl; lia|]).
  by apply elem_of_nil in Hv.
Qed.

Lemma np_unique_elem c y : c ∈ np_unique y ↔ c ∈ y.
Proof. unfold np_unique. by rewrite merge_sort_Permutation, elem_of_remove_dups. Qed.

Lemma np_unique_NoDup y : NoDup (np_unique y).
Proof. unfold np_unique. rewrite merge_sort_Permutation. apply NoDup_remove_dups. Qed.

Lemma np_unique_three_classes y :
  Forall (λ l, l ∈ [-1; 0; 1]) y →
  -1 ∈ y → 0 ∈ y → 1 ∈ y →
  length (np_unique y) = 3%nat.
Proof.
  intros Hall Hm Hz Hp.
  assert (Hperm : np_unique y ≡ₚ [-1; 0; 1]).
  { apply NoDup_Permutation.
    - apply np_unique_NoDup.
    - by apply (bool_decide_unpack _).
    - intros c. rewrite np_unique_elem. split.
      + intros Hc. by apply (proj1 (Forall_forall _ _) Hall).
      + intros Hc.
        repeat (apply elem_of_cons in Hc as [-> | Hc]; [done|]).
        by apply elem_of_nil in Hc. }
  by rewrite Hperm.
Qed.

Lemma index_of_elem c l :
  c ∈ l → ∃ j, index_of c l = Some j ∧ l !! j = Some c.
Proof.
  induction l as [|v l IH]; [by intros ?%elem_of_nil|].
  intros Hc. simpl. destruct (decide (v = c)) as [->|Hne].
  - by exists 0%nat.
  - apply elem_of_cons in Hc as [->|Hc]; [done|].
    destruct (IH Hc) as (j & -> & Hj). by exists (S j).
Qed.

Lemma forallb_bool_decide {A} (P : A → Prop) `{∀ x, Decision (P x)} l :
  Forall P l → forallb (λ x, bool_decide (P x)) l = true.
Proof.
  induction 1 as [|x l Hx _ IH]; [done|].
  simpl. by rewrite bool_decide_eq_true_2, IH.
Qed.

Section ClassWeights.
Context `{RoundingLaws}.

Lemma compute_class_weight_three y :
  Forall (λ l, l ∈ [-1; 0; 1]) y →
  0 < count_of (-1) y → 0 < count_of 0 y → 0 < count_of 1 y →
  compute_class_weight [-1; 0; 1] y =
  Ok [weight_of (Z.of_nat (length y)) (count_of (-1) y);
      weight_of (Z.of_nat (length y)) (count_of 0 y);
      weight_of (Z.of_nat (length y)) (count_of 1 y)].
Proof.
  intros Hall Hm%count_of_pos Hz%count_of_pos Hp%count_of_pos.
  unfold compute_class_weight.
  rewrite (forallb_bool_decide (λ v, v ∈ [-1; 0; 1])) by done.
  rewrite (forallb_bool_decide (λ c, c ∈ np_unique y)).
  2:{ repeat constructor; by apply np_unique_elem. }
  rewrite np_unique_three_classes by done. simpl.
  assert (Hlookup : ∀ c, c ∈ y →
    index_of c (np_unique y) ≫=
      (map (λ cnt, fdiv (of_int (Z.of_nat (length y)))
                        (fmul (of_int 3) cnt))
           (map (λ c, of_int (count_of c y)) (np_unique y)) !!.)
    = Some (weight_of (Z.of_nat (length y)) (count_of c y))).
  { intros c Hc. apply np_unique_elem in Hc.
    destruct (index_of_elem _ _ Hc) as (j & -> & Hj). simpl.
    by rewrite !list_lookup_fmap, Hj. }
  by rewrite !Hlookup.
Qed.

(** C3 (class weights).  For training labels drawn from {-1, 0, 1} with
    positive per-class counts [a], [b], [c], the weight vector is, in the
    class order -1, 0, 1, the binary64 value of [(a+b+c) / (3 * count)] for
    each class; every weight is positive; a class seen at least as often as
    another gets a weight that is no larger; and two splits with the same
    training labels get the same weights, whatever their validation
    labels. *)
Theorem class_weight_correctness (s : Split) (a b c : Z) :
  Forall (λ l, l ∈ [-1; 0; 1]) (train_labels s) →
  count_of (-1) (train_labels s) = a →
  count_of 0 (train_labels s) = b →
  count_of 1 (train_labels s) = c →
  0 < a → 0 < b → 0 < c →
  class_weights s =
    Ok [weight_of (a + b + c) a; weight_of (a + b + c) b;
        weight_of (a + b + c) c] ∧
  Forall (λ w, (0 < w)%Qc)
    [weight_of (a + b + c) a; weight_of (a + b + c) b;
     weight_of (a + b + c) c] ∧
  (∀ x y, x ∈ [a; b; c] → y ∈ [a; b; c] → x ≤ y →
          (weight_of (a + b + c) y ≤ weight_of (a + b + c) x)%Qc) ∧
  (∀ s', train_labels s' = train_labels s → class_weights s' = class_weights s).
Proof.
  intros Hall Ha Hb Hc Hapos Hbpos Hcpos.
  assert (Hin : ∀ x, x ∈ [a; b; c] → 1 ≤ x ≤ a + b + c).
  { intros x Hx.
    repeat (apply elem_of_cons in Hx as [-> | Hx]; [lia|]).
    by apply elem_of_nil in Hx. }
  split; [|split; [|split]].
  - unfold class_weights.
    rewrite compute_class_weight_three by (done || lia).
    by rewrite (length_three_classes _ Hall), Ha, Hb, Hc.
  - repeat constructor; apply weight_of_pos; lia.
  - intros x y Hx%Hin Hy%Hin Hxy. apply weight_of_antitone; lia.
  - intros s' Hsame. unfold class_weights. by rewrite Hsame.
Qed.

End ClassWeights.

(** ** Metrics *)

Lemma argmax_from_bound row : ∀ best_pos best pos,
  (best_pos < pos)%nat →
  (argmax_from best_pos best pos row < pos + length row)%nat.
Proof.
  induction row as [|x rest IH]; intros best_pos best pos Hlt; simpl; [lia|].
  destruct (bool_decide _).
  - specialize (IH pos x (S pos)). lia.
  - specialize (IH best_pos best (S pos)). lia.
Qed.

Lemma np_argmax_bound row k :
  np_argmax row = Ok k → (k < length row)%nat.
Proof.
  destruct row as [|x rest]; [done|]. intros [= <-]. simpl.
  pose proof (argmax_from_bound rest 0%nat x 1%nat). lia.
Qed.

Lemma wrap64_small z : - 2 ^ 63 ≤ z < 2 ^ 63 → wrap64 z = z.
Proof. intros Hz. unfold wrap64. rewrite Z.mod_small; lia. Qed.

Lemma count_where_eqb_diag y : count_where Z.eqb y y = Z.of_nat (length y).
Proof.
  unfold count_where. f_equal.
  induction y as [|v y IH]; [done|].
  simpl. rewrite filter_cons_True; [simpl; by rewrite IH|].
  simpl. by rewrite Z.eqb_refl.
Qed.

Lemma count_where_both_diag l y :
  count_where (λ t p, (t =? l) && (p =? l)) y y = count_of l y.
Proof.
  unfold count_where, count_of. f_equal.
  induction y as [|v y IH]; [done|].
  simpl. rewrite !filter_cons. simpl.
  destruct (decide (v = l)) as [->|Hne].
  - rewrite Z.eqb_refl. simpl. by rewrite IH.
  - apply Z.eqb_neq in Hne as ->. by simpl.
Qed.

Lemma fmap_const_replicate {A B} (f : A → B) (c : B) (l : list A) :
  (∀ x, x ∈ l → f x = c) → f <$> l = replicate (length l) c.
Proof.
  induction l as [|x l IH]; intros Hf; [done|].
  rewrite fmap_cons, length_cons. simpl.
  rewrite Hf by (by left). f_equal. apply IH.
  intros x' Hx'. apply Hf. by right.
Qed.

Lemma mapM_np_argmax rows ls :
  Forall2 (λ row l, ∃ k, np_argmax row = Ok k ∧ Z.of_nat k = l) rows ls →
  ∃ ks, mapM np_argmax rows = Ok ks ∧ Z.of_nat <$> ks = ls.
Proof.
  induction 1 as [|row l rows ls (k & Hk & <-) _ (ks & IH & <-)].
  - by exists [].
  - exists (k :: ks). simpl. by rewrite Hk, IH.
Qed.

Lemma np_sub_class_index rows ls :
  Forall (λ row, length row = 3%nat) rows →
  Forall2 (λ row l, ∃ k, np_argmax row = Ok k ∧ Z.of_nat k = l) rows ls →
  Forall (λ l, l ∈ [-1; 0; 1]) (np_sub ls 1).
Proof.
  intros Hshape Hbest. revert Hshape.
  induction Hbest as [|row l rows ls (k & Hk & <-) _ IH]; intros Hshape.
  - constructor.
  - apply Forall_cons in Hshape as [Hrow Hshape].
    simpl. constructor; [|by apply IH].
    apply np_argmax_bound in Hk. rewrite Hrow in Hk.
    rewrite wrap64_small by lia.
    assert (Z.of_nat k = 0 ∨ Z.of_nat k = 1 ∨ Z.of_nat k = 2)
      as [-> | [-> | ->]] by lia; set_solver.
Qed.

Section Metrics.
Context `{RoundingLaws}.

Lemma fdiv_diag x : x ≠ 0%Qc → fdiv x x = 1%Qc.
Proof.
  intros Hx. unfold fdiv. rewrite Qcdiv_diag by done.
  change 1%Qc with (Z2Qc 1). by apply round64_int.
Qed.

Lemma round64_twice x : round64 x = x → round64 (x + x)%Qc = (Z2Qc 2 * x)%Qc.
Proof.
  intros Hx. replace (x + x)%Qc with (Z2Qc 2 * x)%Qc.
  - by rewrite round64_double, Hx.
  - change (Z2Qc 2) with (1 + 1)%Qc. ring.
Qed.

Lemma accuracy_score_diag y : y ≠ [] → accuracy_score y y = Ok 1%Qc.
Proof.
  intros Hy. unfold accuracy_score.
  rewrite Nat.eqb_refl. simpl.
  destruct y as [|v y']; [done|]. 
  replace (length (v :: y') =? 0)%nat with false by done.
  rewrite count_where_eqb_diag. f_equal. apply fdiv_diag.
  apply not_eq_sym, Qclt_not_eq, of_int_pos. rewrite length_cons. lia.
Qed.

Lemma f1_of_label_diag y l : l ∈ y → f1_of_label y y l = 1%Qc.
Proof.
  intros Hl%count_of_pos. unfold f1_of_label.
  rewrite count_where_both_diag.
  destruct (count_of l y + count_of l y =? 0) eqn:Hz; [lia|].
  set (x := of_int (count_of l y)).
  assert (Hfix : round64 x = x) by apply of_int_fixed.
  assert (Hx : (0 < x)%Qc) by (apply of_int_pos; lia).
  assert (Hnum : fmul (fadd (Z2Qc 1) (Z2Qc 1)) x = (Z2Qc 2 * x)%Qc).
  { unfold fmul, fadd. rewrite Z2Qc_add. simpl.
    rewrite (round64_int 2) by done. by rewrite round64_double, Hfix. }
  assert (Hden : fadd (fmul (Z2Qc 1) x) x = (Z2Qc 2 * x)%Qc).
  { unfold fmul, fadd. change (Z2Qc 1) with 1%Qc.
    rewrite Qcmult_1_l, Hfix. by apply round64_twice. }
  rewrite Hnum, Hden. apply fdiv_diag.
  apply not_eq_sym, Qclt_not_eq. by apply Qcmult_pos_pos.
Qed.

Lemma foldl_fadd_ones k : ∀ j,
  0 ≤ j → j + Z.of_nat k ≤ 2 ^ 53 →
  foldl fadd (Z2Qc j) (replicate k 1%Qc) = Z2Qc (j + Z.of_nat k).
Proof.
  induction k as [|k IH]; intros j Hj Hk; simpl.
  - by rewrite Z.add_0_r.
  - unfold fadd at 2. change 1%Qc with (Z2Qc 1).
    rewrite Z2Qc_add, round64_int by lia.
    rewrite IH by lia. f_equal. lia.
Qed.

Lemma np_mean_ones k :
  (0 < k)%nat → Z.of_nat k ≤ 2 ^ 53 → np_mean (replicate k 1%Qc) = 1%Qc.
Proof.
  intros Hk Hbound. unfold np_mean.
  rewrite foldl_fadd_ones, length_replicate, Z.add_0_l by lia.
  rewrite <- (of_int_small (Z.of_nat k)) by lia. apply fdiv_diag.
  apply not_eq_sym, Qclt_not_eq, of_int_pos. lia.
Qed.

Lemma f1_score_macro_diag y :
  y ≠ [] → Forall (λ l, l ∈ [-1; 0; 1]) y → f1_score_macro y y = Ok 1%Qc.
Proof.
  intros Hy Hall. unfold f1_score_macro.
  rewrite Nat.eqb_refl. simpl.
  destruct y as [|v y'] eqn:Ey; [done|].
  replace (length (v :: y') =? 0)%nat with false by done.
  rewrite <- Ey in *. f_equal.
  set (present := np_unique (y ++ y)).
  assert (Hin : ∀ l, l ∈ present → l ∈ y).
  { intros l. unfold present. rewrite np_unique_elem, elem_of_app. tauto. }
  assert (Hones : f1_of_label y y <$> present = replicate (length present) 1%Qc).
  { apply fmap_const_replicate. intros l Hl. by apply f1_of_label_diag, Hin. }
  change (map (f1_of_label y y) present) with (f1_of_label y y <$> present).
  rewrite Hones. apply np_mean_ones.
  - assert (Hv : v ∈ present).
    { unfold present. rewrite np_unique_elem, Ey. set_solver. }
    destruct present; [by apply elem_of_nil in Hv|simpl; lia].
  - assert (length present ≤ length [-1; 0; 1]%Z)%nat.
    { apply submseteq_length, NoDup_submseteq; [apply np_unique_NoDup|].
      intros l Hl%Hin. by apply (proj1 (Forall_forall _ _) Hall). }
    simpl in *. lia.
Qed.

(** C5 (metrics on perfect predictions).  For a non-empty logit matrix with
    three columns and a label vector of the same length in which every
    label is the arg-max position of its row, [compute_metrics] returns
    accuracy 1.0 and macro-averaged F1 1.0. *)
Theorem metrics_perfect_predictions (pred : EvalPrediction) :
  predictions pred ≠ [] →
  Forall (λ row, length row = 3%nat) (predictions pred) →
  Forall2 (λ row l, ∃ k, np_argmax row = Ok k ∧ Z.of_nat k = l)
          (predictions pred) (label_ids pred) →
  compute_metrics pred = Ok {[ "accuracy" := 1%Qc; "f1" := 1%Qc ]}.
Proof.
  intros Hne Hshape Hbest. unfold compute_metrics.
  pose proof (np_sub_class_index _ _ Hshape Hbest) as Hclasses.
  destruct (mapM_np_argmax _ _ Hbest) as (ks & -> & Hks). simpl.
  rewrite Hks.
  assert (Hy : np_sub (label_ids pred) 1 ≠ []).
  { destruct Hbest; [done|]. done. }
  by rewrite accuracy_score_diag, f1_score_macro_diag.
Qed.
End Metrics.

Lemma class_weight_correctness_witness :
  @class_weights exact_rounding example_split =
    Ok [@weight_of exact_rounding (1 + 2 + 3) 1;
        @weight_of exact_rounding (1 + 2 + 3) 2;
        @weight_of exact_rounding (1 + 2 + 3) 3] ∧
  Forall (λ w, (0 < w)%Qc)
    [@weight_of exact_rounding (1 + 2 + 3) 1;
     @weight_of exact_rounding (1 + 2 + 3) 2;
     @weight_of exact_rounding (1 + 2 + 3) 3] ∧
  (∀ x y, x ∈ [1; 2; 3] → y ∈ [1; 2; 3] → x ≤ y →
          (@weight_of exact_rounding (1 + 2 + 3) y
           ≤ @weight_of exact_rounding (1 + 2 + 3) x)%Qc) ∧
  (∀ s', train_labels s' = train_labels example_split →
         @class_weights exact_rounding s' =
         @class_weights exact_rounding example_split).
Proof.
  apply (@class_weight_correctness exact_rounding exact_rounding_laws
           example_split 1 2 3); try reflexivity.
  apply (bool_decide_unpack _). reflexivity.
Defined.

Lemma metrics_perfect_predictions_witness :
  @compute_metrics exact_rounding example_prediction =
  Ok {[ "accuracy" := 1%Qc; "f1" := 1%Qc ]}.
Proof.
  apply (@metrics_perfect_predictions exact_rounding exact_rounding_laws).
  - discriminate.
  - repeat constructor.
  - repeat constructor; eexists; split; reflexivity.
Defined.

(** ** The weighted trainer *)

Section WeightedTrainerProperties.

Variable FloatTensor : Type.
Variable Device : Type.
Variable tensor_to : FloatTensor → Device → FloatTensor.
Variable CrossEntropyLoss : FloatTensor → FloatTensor → FloatTensor → Res FloatTensor.

Abbreviation loss_of := (compute_loss FloatTensor Device tensor_to CrossEntropyLoss).

(** C6 (weighted loss).  For a batch that contains labels: when the forward
    pass of the model on the batch yields [outputs] with logits, and the
    cross-entropy of these logits against the batch labels, weighted by the
    class weights moved to the model's device, is [loss], then
    [compute_loss] returns the pair of [loss] and [outputs] if
    [return_outputs] is true and [loss] alone if it is false. *)
Theorem weighted_loss_contract (self : WeightedTrainer FloatTensor)
    (model : Model FloatTensor Device) inputs labels outputs logits w loss :
  inputs !! "labels" = Some labels →
  trainer_class_weights _ self = Some w →
  forward _ _ model inputs = Ok outputs →
  outputs !! "logits" = Some logits →
  CrossEntropyLoss (tensor_to w (device _ _ model)) logits labels = Ok loss →
  loss_of self model inputs true = Ok (LossAndOutputs _ loss outputs) ∧
  loss_of self model inputs false = Ok (LossOnly _ loss).
Proof.
  intros Hlabels Hw Hfwd Hlogits Hloss. unfold compute_loss.
  rewrite Hfwd. simpl. rewrite Hw. simpl.
  by rewrite Hlogits, Hlabels, Hloss.
Qed.

(** A failing forward pass fails the loss computation. *)
Lemma compute_loss_forward_fails (self : WeightedTrainer FloatTensor)
    (model : Model FloatTensor Device) inputs flag e :
  forward _ _ model inputs = Raise e → loss_of self model inputs flag = Raise e.
Proof. intros Hfwd. unfold compute_loss. by rewrite Hfwd. Qed.

End WeightedTrainerProperties.

Lemma weighted_loss_contract_witness :
  compute_loss sym_tensor string SymTo (λ w lg lb, Ok (SymLoss w lg lb))
    (mkWeightedTrainer _ (Some (Sym "class_weights"))) sym_model sym_batch true =
  Ok (LossAndOutputs _
        (SymLoss (SymTo (Sym "class_weights") "cuda:0") (Sym "logits")
                 (Sym "labels"))
        {[ "loss" := Sym "model_loss"; "logits" := Sym "logits" ]}) ∧
  compute_loss sym_tensor string SymTo (λ w lg lb, Ok (SymLoss w lg lb))
    (mkWeightedTrainer _ (Some (Sym "class_weights"))) sym_model sym_batch false =
  Ok (LossOnly _
        (SymLoss (SymTo (Sym "class_weights") "cuda:0") (Sym "logits")
                 (Sym "labels"))).
Proof.
  apply (weighted_loss_contract sym_tensor string SymTo
           (λ w lg lb, Ok (SymLoss w lg lb))
           (mkWeightedTrainer _ (Some (Sym "class_weights"))) sym_model
           sym_batch (Sym "labels")
           {[ "loss" := Sym "model_loss"; "logits" := Sym "logits" ]}
           (Sym "logits") (Sym "class_weights")); reflexivity.
Defined.

(** ** The checkpoint loader *)

Section CheckpointLoaderProperties.

Variable LModel : Type.
Variable from_pretrained : gmap string node → string → option Z → Res LModel.

Abbreviation load := (load_checkpoint LModel from_pretrained).

(** C7 (checkpoint loader).  When the checkpoint directory exists, holds a
    model state that [from_pretrained] accepts and holds an RNG-state file,
    the loading step returns the model read from the checkpoint and leaves a
    file system that differs only in that the RNG-state file is gone.  When
    nothing exists at the checkpoint path, the step returns what
    [from_pretrained] builds for the base model with 3 labels, and changes
    nothing. *)
Theorem checkpoint_loader_post_state (path : string) (w : World) :
  path ≠ "" →
  (∀ sz model content,
     fs w !! path = Some (Dir sz) →
     from_pretrained (fs w) path None = Ok model →
     fs w !! os_path_join path "rng_state.pth" = Some (File content) →
     ∃ w', load (Some path) w = (Ok model, w') ∧
           fs w' !! os_path_join path "rng_state.pth" = None ∧
           fs w' = delete (os_path_join path "rng_state.pth") (fs w) ∧
           trace w' = trace w) ∧
  (fs w !! path = None →
   load (Some path) w = (from_pretrained (fs w) base_model_name (Some 3), w)).
Proof.
  intros Hpath. split.
  - intros sz model content Hdir Hmodel Hrng.
    exists (mkWorld (delete (os_path_join path "rng_state.pth") (fs w)) (trace w)).
    split; [|simpl; by rewrite lookup_delete_eq].
    unfold load_checkpoint, bind at 1.
    rewrite bool_decide_eq_false_2 by done.
    unfold os_path_exists at 1. rewrite Hdir. simpl.
    unfold bind at 1, from_pretrained_m. rewrite Hmodel.
    unfold bind at 1, os_path_exists. rewrite Hrng. simpl.
    unfold bind, os_remove, ret. by rewrite Hrng.
  - intros Habsent. unfold load_checkpoint, bind.
    rewrite bool_decide_eq_false_2 by done.
    unfold os_path_exists. rewrite Habsent. done.
Qed.

(** Without a configured path the base model is built as well. *)
Lemma load_checkpoint_unset w :
  load None w = (from_pretrained (fs w) base_model_name (Some 3), w).
Proof. done. Qed.

(** A checkpoint without RNG state is loaded and nothing is removed. *)
Lemma load_checkpoint_no_rng path w sz model :
  path ≠ "" →
  fs w !! path = Some (Dir sz) →
  from_pretrained (fs w) path None = Ok model →
  fs w !! os_path_join path "rng_state.pth" = None →
  load (Some path) w = (Ok model, w).
Proof.
  intros Hpath Hdir Hmodel Hrng.
  unfold load_checkpoint, bind at 1.
  rewrite bool_decide_eq_false_2 by done.
  unfold os_path_exists at 1. rewrite Hdir. simpl.
  unfold bind at 1, from_pretrained_m. rewrite Hmodel.
  unfold bind at 1, os_path_exists. rewrite Hrng. simpl.
  unfold bind, ret. done.
Qed.

End CheckpointLoaderProperties.

Lemma checkpoint_loader_post_state_witness :
  (∃ w', load_checkpoint _ ref_from_pretrained checkpoint_path checkpoint_world
           = (Ok ([x2a], None), w') ∧
         fs w' !! "./results_phase2/checkpoint-9580/rng_state.pth" = None ∧
         fs w' = delete "./results_phase2/checkpoint-9580/rng_state.pth"
                   (fs checkpoint_world) ∧
         trace w' = trace checkpoint_world) ∧
  load_checkpoint _ ref_from_pretrained checkpoint_path empty_world =
  (Ok ([], Some 3), empty_world).
Proof.
  split.
  - apply (proj1 (checkpoint_loader_post_state _ ref_from_pretrained
                    "./results_phase2/checkpoint-9580" checkpoint_world
                    ltac:(discriminate)) 4096 ([x2a], None) [x07]);
      reflexivity.
  - apply (proj2 (checkpoint_loader_post_state _ ref_from_pretrained
                    "./results_phase2/checkpoint-9580" empty_world
                    ltac:(discriminate))).
    reflexivity.
Defined.

(** * Further properties *)

(** ** The tokenization cache: what else a call does *)

Lemma count_events_app p evs1 evs2 :
  count_events p (evs1 ++ evs2) = count_events p evs1 + count_events p evs2.
Proof. unfold count_events. rewrite filter_app, length_app. lia. Qed.

Lemma count_events_progress p i n :
  count_events p [EvPrint (progress_line i n); EvCudaEmptyCache; EvGcCollect]
    = 1 →
  count_events p (progress_events i n) = if i `mod` 500 =? 0 then 1 else 0.
Proof.
  intros Hp. unfold progress_events. by destruct (i `mod` 500 =? 0).
Qed.

(** Between index [i] and index [i + 1] the number of multiples of 500 met
    so far grows by one exactly when [i] is such a multiple. *)
Lemma progress_step i :
  0 ≤ i →
  (i + 1 + 499) `div` 500 - (i + 499) `div` 500 =
  if i `mod` 500 =? 0 then 1 else 0.
Proof.
  intros Hi. destruct (i `mod` 500 =? 0) eqn:Hmod.
  - apply Z.eqb_eq in Hmod. Z.div_mod_to_equations. lia.
  - apply Z.eqb_neq in Hmod. Z.div_mod_to_equations. lia.
Qed.

(** A loop that completes from index [i] has logged one progress report per
    multiple of 500 among its indices. *)
Lemma tokenize_loop_progress p tok m n texts : ∀ i ids masks w r w',
  (∀ j, count_events p
          [EvPrint (progress_line j n); EvCudaEmptyCache; EvGcCollect] = 1) →
  (∀ text, p (EvTokenizer text m) = false) →
  0 ≤ i →
  tokenize_loop tok m n i texts ids masks w = (Ok r, w') →
  ∃ evs, w' = add_events w evs ∧
         count_events p evs =
         (i + Z.of_nat (length texts) + 499) `div` 500 - (i + 499) `div` 500.
Proof.
  induction texts as [|text rest IH]; intros i ids masks w r w' Hp Htok Hi Hrun.
  - simpl in Hrun. unfold ret in Hrun. injection Hrun as _ <-.
    exists []. rewrite add_events_nil. split; [done|].
    change (Z.of_nat (length (@nil string))) with 0.
    by rewrite Z.add_0_r, Z.sub_diag.
  - rewrite tokenize_loop_step in Hrun.
    destruct (tok text m) as [encoding|e]; [|done].
    destruct (encoding !! "input_ids") as [a|]; [|done].
    destruct (encoding !! "attention_mask") as [b|]; [|done].
    apply IH in Hrun as (evs & -> & Hcount); [|done|done|lia].
    rewrite add_events_app. eexists. split; [done|].
    change (EvTokenizer text m :: progress_events i n)
      with ([EvTokenizer text m] ++ progress_events i n).
    rewrite !count_events_app, Hcount, count_events_progress by done.
    unfold count_events at 1. rewrite filter_cons, filter_nil, Htok.
    rewrite decide_False by done. simpl.
    rewrite <- (progress_step i) by done.
    rewrite Nat2Z.inj_succ.
    replace (i + Z.succ (Z.of_nat (length rest)) + 499)
      with (i + 1 + Z.of_nat (length rest) + 499) by lia.
    lia.
Qed.

Section TokenizeWithCacheMore.

Variable pickle_dumps : Encodings → list byte.
Variable pickle_loads : list byte → option Encodings.

Abbreviation tokenize' := (tokenize_with_cache pickle_dumps pickle_loads).

(** What a call can do to the files: nothing, or put the serialization of
    the mapping it returns at the cache path. *)
Lemma tokenize_with_cache_files texts tok m path w r w' :
  tokenize' texts tok m path w = (r, w') →
  fs w' = fs w ∨
  ∃ enc, r = Ok enc ∧ fs w' = <[path := File (pickle_dumps enc)]> (fs w).
Proof.
  intros Hrun. destruct (cache_present (fs w) path) eqn:Hhit.
  - rewrite tokenize_with_cache_hit in Hrun by done. left.
    destruct (fs w !! path) as [[content|sz]|]; by injection Hrun as _ <-.
  - rewrite tokenize_with_cache_miss in Hrun by done.
    destruct (tokenize_loop _ _ _ _ _ _ _ w) as [[[ids masks]|e] w1] eqn:Hloop.
    + apply tokenize_loop_effects in Hloop as (evs & -> & _). simpl in Hrun.
      destruct (fs w !! path) as [[content|sz]|];
        injection Hrun as <- <-; eauto.
    + apply tokenize_loop_effects in Hloop as (evs & -> & _).
      left. by injection Hrun as _ <-.
Qed.

(** A call only appends to the log. *)
Lemma tokenize_with_cache_log texts tok m path w r w' :
  tokenize' texts tok m path w = (r, w') →
  ∃ evs, trace w' = trace w ++ evs.
Proof.
  intros Hrun. destruct (cache_present (fs w) path) eqn:Hhit.
  - rewrite tokenize_with_cache_hit in Hrun by done.
    destruct (fs w !! path) as [[content|sz]|]; injection Hrun as _ <-;
      first [by eexists | by exists []; rewrite app_nil_r].
  - rewrite tokenize_with_cache_miss in Hrun by done.
    destruct (tokenize_loop _ _ _ _ _ _ _ w) as [[[ids masks]|e] w1] eqn:Hloop;
      apply tokenize_loop_effects in Hloop as (evs & -> & _).
    + simpl in Hrun.
      destruct (fs w !! path) as [[content|sz]|]; injection Hrun as _ <-;
        simpl; rewrite <- ?app_assoc; by eexists.
    + injection Hrun as _ <-. by eexists.
Qed.

(** X1 (frame).  Whatever its outcome, a call leaves every path other than
    its cache path as it was and only appends to the log; a call that finds a
    usable cache at its path, whether or not the cache then loads, changes no
    file at all. *)
Theorem tokenize_with_cache_frame texts tok m path w r w' :
  tokenize_with_cache pickle_dumps pickle_loads texts tok m path w = (r, w') →
  (∀ other, other ≠ path → fs w' !! other = fs w !! other) ∧
  (cache_present (fs w) path = true → fs w' = fs w) ∧
  (∃ evs, trace w' = trace w ++ evs).
Proof.
  intros Hrun. split; [|split; [|by eapply tokenize_with_cache_log]].
  - destruct (tokenize_with_cache_files _ _ _ _ _ _ _ Hrun)
      as [Hsame | (enc & _ & Hput)]; [by rewrite Hsame|].
    intros other Hother. rewrite Hput. by apply lookup_insert_ne.
  - intros Hhit. rewrite tokenize_with_cache_hit in Hrun by done.
    destruct (fs w !! path) as [[content|sz]|]; by injection Hrun as _ <-.
Qed.

(** X2 (a corrupt cache is never repaired).  A non-empty cache file that
    the unpickler refuses makes the call fail: the error of the load is the
    outcome of the call, nothing is tokenized and nothing is written.  The
    file stays, so the next call, whatever its texts and tokenizer, fails
    with the same error. *)
Theorem corrupt_cache_persists texts tok m path w content :
  fs w !! path = Some (File content) →
  content ≠ [] →
  pickle_loads content = None →
  ∃ e,
    tokenize_with_cache pickle_dumps pickle_loads texts tok m path w =
      (Raise e, add_events w [EvRead path]) ∧
    fs (add_events w [EvRead path]) = fs w ∧
    ∀ texts2 tok2 m2,
      tokenize_with_cache pickle_dumps pickle_loads texts2 tok2 m2 path
        (add_events w [EvRead path]) =
      (Raise e, add_events w [EvRead path; EvRead path]).
Proof.
  intros Hfile Hne Hload.
  assert (Hhit : ∀ evs, cache_present (fs (add_events w evs)) path = true).
  { intros evs. unfold cache_present. simpl. rewrite Hfile.
    destruct content as [|b bs]; [done|].
    apply Z.ltb_lt. rewrite length_cons. lia. }
  exists UnpicklingError. split; [|split; [done|]].
  - rewrite tokenize_with_cache_hit by (rewrite <- (add_events_nil w); apply Hhit).
    by rewrite Hfile, Hload.
  - intros texts2 tok2 m2. rewrite tokenize_with_cache_hit by apply Hhit.
    simpl. rewrite Hfile, Hload. by rewrite add_events_app.
Qed.

(** X3 (progress reports).  A call that tokenizes [n] texts prints a
    progress line for the indices 0, 500, 1000, ... below [n], that is
    [(n + 499) / 500] lines, and empties the accelerator cache and collects
    garbage as many times. *)
Theorem tokenize_progress_reports texts tok m path w enc w' :
  cache_present (fs w) path = false →
  tokenize' texts tok m path w = (Ok enc, w') →
  ∃ evs,
    trace w' = trace w ++ evs ∧
    count_events is_print_event evs = (Z.of_nat (length texts) + 499) `div` 500 ∧
    count_events is_cuda_event evs = (Z.of_nat (length texts) + 499) `div` 500 ∧
    count_events is_gc_event evs = (Z.of_nat (length texts) + 499) `div` 500.
Proof.
  intros Hmiss. rewrite tokenize_with_cache_miss by done.
  destruct (tokenize_loop _ _ _ _ _ _ _ w) as [[[ids masks]|e] w1] eqn:Hloop;
    [|done].
  intros Hrun.
  assert (Hcount : ∀ p,
    (∀ j, count_events p
            [EvPrint (progress_line j (Z.of_nat (length texts)));
             EvCudaEmptyCache; EvGcCollect] = 1) →
    (∀ text, p (EvTokenizer text m) = false) →
    p (EvWrite path) = false →
    ∃ evs, w1 = add_events w evs ∧
      count_events p (evs ++ [EvWrite path]) =
      (Z.of_nat (length texts) + 499) `div` 500).
  { intros p Hp Htok Hwrite.
    destruct (tokenize_loop_progress p _ _ _ _ _ _ _ _ _ _ Hp Htok
                ltac:(done) Hloop) as (evs & -> & Hevs).
    exists evs. split; [done|].
    rewrite count_events_app, Hevs. unfold count_events.
    rewrite filter_cons, filter_nil, Hwrite, decide_False by done.
    change (Z.of_nat (length (@nil event))) with 0.
    change ((0 + 499) `div` 500) with 0.
    by rewrite Z.add_0_l, Z.sub_0_r, Z.add_0_r. }
  destruct (Hcount is_print_event) as (evs & -> & Hprint); [done..|].
  destruct (Hcount is_cuda_event) as (evs2 & Heq2 & Hcuda); [done..|].
  destruct (Hcount is_gc_event) as (evs3 & Heq3 & Hgc); [done..|].
  assert (evs2 = evs) as ->.
  { apply (f_equal trace) in Heq2. simpl in Heq2. by apply app_inv_head in Heq2. }
  assert (evs3 = evs) as ->.
  { apply (f_equal trace) in Heq3. simpl in Heq3. by apply app_inv_head in Heq3. }
  exists (evs ++ [EvWrite path]).
  split; [|done].
  simpl in Hrun.
  destruct (fs w !! path) as [[content|sz]|]; try done;
    injection Hrun as _ <-; simpl; by rewrite <- app_assoc.
Qed.

End TokenizeWithCacheMore.

Lemma tokenize_with_cache_frame_witness :
  (∀ other, other ≠ "train_longformer.pkl" →
     fs (tokenize_with_cache ref_dumps ref_loads example_texts ref_tokenizer 3
           "train_longformer.pkl" cached_world).2 !! other =
     fs cached_world !! other) ∧
  (cache_present (fs cached_world) "train_longformer.pkl" = true →
   fs (tokenize_with_cache ref_dumps ref_loads example_texts ref_tokenizer
         3 "train_longformer.pkl" cached_world).2 = fs cached_world) ∧
  (∃ evs,
     trace (tokenize_with_cache ref_dumps ref_loads example_texts ref_tokenizer
              3 "train_longformer.pkl" cached_world).2 =
     trace cached_world ++ evs).
Proof.
  apply (tokenize_with_cache_frame ref_dumps ref_loads example_texts
           ref_tokenizer 3 "train_longformer.pkl" cached_world
           (tokenize_with_cache ref_dumps ref_loads example_texts ref_tokenizer
              3 "train_longformer.pkl" cached_world).1).
  reflexivity.
Defined.

Lemma corrupt_cache_persists_witness :
  ∃ e,
    tokenize_with_cache ref_dumps ref_loads example_texts ref_tokenizer 3
      "train_longformer.pkl" corrupt_world =
      (Raise e, add_events corrupt_world [EvRead "train_longformer.pkl"]) ∧
    fs (add_events corrupt_world [EvRead "train_longformer.pkl"]) =
      fs corrupt_world ∧
    ∀ texts2 tok2 m2,
      tokenize_with_cache ref_dumps ref_loads texts2 tok2 m2
        "train_longformer.pkl"
        (add_events corrupt_world [EvRead "train_longformer.pkl"]) =
      (Raise e,
       add_events corrupt_world
         [EvRead "train_longformer.pkl"; EvRead "train_longformer.pkl"]).
Proof.
  apply (corrupt_cache_persists ref_dumps ref_loads example_texts ref_tokenizer
           3 "train_longformer.pkl" corrupt_world [x80; x02]).
  - reflexivity.
  - discriminate.
  - reflexivity.
Defined.

Lemma tokenize_progress_reports_witness :
  ∃ evs,
    trace (tokenize_with_cache ref_dumps ref_loads example_texts ref_tokenizer
             3 "train_longformer.pkl" empty_world).2 =
    trace empty_world ++ evs ∧
    count_events is_print_event evs =
      (Z.of_nat (length example_texts) + 499) `div` 500 ∧
    count_events is_cuda_event evs =
      (Z.of_nat (length example_texts) + 499) `div` 500 ∧
    count_events is_gc_event evs =
      (Z.of_nat (length example_texts) + 499) `div` 500.
Proof.
  apply (tokenize_progress_reports ref_dumps ref_loads example_texts
           ref_tokenizer 3 "train_longformer.pkl" empty_world
           example_encodings); reflexivity.
Defined.

(** ** Data preparation *)

Section DataPreparationProperties.

Variable pickle_dumps : Encodings → list byte.
Variable pickle_loads : list byte → option Encodings.

Abbreviation tokenize2 := (tokenize_with_cache pickle_dumps pickle_loads).
Abbreviation prepare := (prepare_encodings pickle_dumps pickle_loads).

(** A call on a free cache path, with the tokenizer honouring its contract:
    its result, its world and its log. *)
Lemma tokenize_with_cache_fresh texts tok m path w :
  fs w !! path = None ∨ fs w !! path = Some (File []) →
  Forall (pads_to tok m) texts →
  ∃ ids masks evs,
    tokenize2 texts tok m path w =
      (Ok (make_encodings ids masks),
       mkWorld (<[path := File (pickle_dumps (make_encodings ids masks))]> (fs w))
               (trace w ++ evs ++ [EvWrite path])) ∧
    Forall2 (field_of tok m "input_ids") texts ids ∧
    Forall2 (field_of tok m "attention_mask") texts masks ∧
    Forall (λ s, Z.of_nat (length s) = m) ids ∧
    Forall (λ s, Z.of_nat (length s) = m) masks ∧
    no_write evs ∧ tokenizer_calls evs = length texts.
Proof.
  intros Hfree Hpad.
  assert (Hmiss : cache_present (fs w) path = false).
  { unfold cache_present. by destruct Hfree as [-> | ->]. }
  rewrite tokenize_with_cache_miss by done.
  destruct (tokenize_loop_ok tok m (Z.of_nat (length texts)) texts Hpad 0 [] [] w)
    as (ids & masks & evs & Hloop & Hids & Hmasks & Hli & Hlm).
  destruct (tokenize_loop_effects _ _ _ _ _ _ _ _ _ _ Hloop)
    as (evs' & Heq & Hnw & Hcalls).
  assert (evs' = evs) as ->.
  { apply (f_equal trace) in Heq. simpl in Heq. by apply app_inv_head in Heq. }
  rewrite Hloop. simpl. exists ids, masks, evs.
  split; [|repeat split; try done; apply Hcalls; by eexists].
  rewrite <- (app_assoc (trace w)).
  by destruct Hfree as [-> | ->].
Qed.

(** The two cache paths of the script are different paths. *)
Lemma cache_paths_differ : train_cache_path ≠ val_cache_path.
Proof. done. Qed.

(** X4 (a fresh run writes both caches).  When neither cache path holds a
    file with content and the tokenizer honours its contract on every text,
    the two calls of the script succeed; afterwards each cache path holds the
    serialization of the encodings returned for its split, the second call
    has not touched the first file, every other path is as before, and the
    tokenizer has been called once per text of both splits. *)
Theorem prepare_encodings_fresh (s : Split) tok w :
  fs w !! train_cache_path = None ∨ fs w !! train_cache_path = Some (File []) →
  fs w !! val_cache_path = None ∨ fs w !! val_cache_path = Some (File []) →
  Forall (pads_to tok max_length) (train_texts s) →
  Forall (pads_to tok max_length) (val_texts s) →
  ∃ train_encodings val_encodings w' evs,
    prepare s tok w = (Ok (train_encodings, val_encodings), w') ∧
    fs w' !! train_cache_path = Some (File (pickle_dumps train_encodings)) ∧
    fs w' !! val_cache_path = Some (File (pickle_dumps val_encodings)) ∧
    (∀ other, other ≠ train_cache_path → other ≠ val_cache_path →
              fs w' !! other = fs w !! other) ∧
    trace w' = trace w ++ evs ∧
    tokenizer_calls evs =
      (length (train_texts s) + length (val_texts s))%nat.
Proof.
  intros Htrain Hval Hpt Hpv. unfold prepare_encodings, bind.
  destruct (tokenize_with_cache_fresh _ tok max_length _ w Htrain Hpt)
    as (ids1 & masks1 & evs1 & -> & _ & _ & _ & _ & _ & Hcalls1).
  set (w1 := mkWorld _ _).
  assert (Hval1 : fs w1 !! val_cache_path = None ∨
                  fs w1 !! val_cache_path = Some (File [])).
  { unfold w1. simpl. by rewrite lookup_insert_ne. }
  destruct (tokenize_with_cache_fresh _ tok max_length _ w1 Hval1 Hpv)
    as (ids2 & masks2 & evs2 & -> & _ & _ & _ & _ & _ & Hcalls2).
  unfold ret.
  eexists (make_encodings ids1 masks1), (make_encodings ids2 masks2), _,
    ((evs1 ++ [EvWrite train_cache_path]) ++ evs2 ++ [EvWrite val_cache_path]).
  split; [done|]. simpl. split; [|split; [|split; [|split]]].
  - rewrite lookup_insert_ne by done. by rewrite lookup_insert_eq.
  - by rewrite lookup_insert_eq.
  - intros other Ht Hv. by rewrite !lookup_insert_ne.
  - by rewrite <- !app_assoc.
  - unfold tokenizer_calls in *.
    rewrite !filter_app, !length_app, Hcalls1, Hcalls2. simpl. lia.
Qed.

Hypothesis pickle_roundtrip : ∀ e, pickle_loads (pickle_dumps e) = Some e.
Hypothesis pickle_nonempty : ∀ e, pickle_dumps e ≠ [].

(** Once a call has returned [enc], any call on the same cache path, in any
    world that holds the same file there, returns [enc] after one read. *)
Lemma tokenize_with_cache_replay texts tok m path w enc w1 :
  tokenize2 texts tok m path w = (Ok enc, w1) →
  ∀ texts2 tok2 m2 w2,
    fs w2 !! path = fs w1 !! path →
    tokenize2 texts2 tok2 m2 path w2 = (Ok enc, add_events w2 [EvRead path]).
Proof.
  intros Hfirst texts2 tok2 m2 w2 Hsame.
  assert (Hfile : ∃ content,
    fs w1 !! path = Some (File content) ∧ content ≠ [] ∧
    pickle_loads content = Some enc).
  { destruct (cache_present (fs w) path) eqn:Hhit.
    - rewrite tokenize_with_cache_hit in Hfirst by done.
      unfold cache_present in Hhit.
      destruct (fs w !! path) as [[content|sz]|] eqn:Hfile; try done.
      destruct (pickle_loads content) as [obj|] eqn:Hload; [|done].
      injection Hfirst as -> <-. exists content. simpl.
      split; [done|]. split; [|done]. by intros ->.
    - rewrite tokenize_with_cache_miss in Hfirst by done.
      destruct (tokenize_loop _ _ _ _ _ _ _ w) as [[[ids masks]|e] w'];
        [|done].
      simpl in Hfirst. exists (pickle_dumps enc).
      destruct (fs w' !! path) as [[content|sz]|]; try done;
        injection Hfirst as <- <-; simpl;
        by rewrite lookup_insert_eq. }
  destruct Hfile as (content & Hfile & Hne & Hload).
  rewrite <- Hsame in Hfile.
  rewrite tokenize_with_cache_hit.
  - by rewrite Hfile, Hload.
  - unfold cache_present. rewrite Hfile.
    destruct content as [|b bs]; [done|].
    apply Z.ltb_lt. rewrite length_cons. lia.
Qed.

(** X5 (a rerun tokenizes nothing).  After a run of the two calls that
    returned a pair of encodings, running them again, with any split and any
    tokenizer, returns the same pair; it only reads the two cache files. *)
Theorem prepare_encodings_rerun (s : Split) tok w train_encodings val_encodings w1 :
  prepare s tok w = (Ok (train_encodings, val_encodings), w1) →
  ∀ (s2 : Split) tok2,
    prepare s2 tok2 w1 =
    (Ok (train_encodings, val_encodings),
     add_events w1 [EvRead train_cache_path; EvRead val_cache_path]).
Proof.
  intros Hrun s2 tok2. unfold prepare_encodings, bind in Hrun.
  destruct (tokenize2 (train_texts s) tok max_length train_cache_path w)
    as [[te|e] wa] eqn:Ha; [|done].
  destruct (tokenize2 (val_texts s) tok max_length val_cache_path wa)
    as [[ve|e] wb] eqn:Hb; [|done].
  unfold ret in Hrun. injection Hrun as -> -> ->.
  assert (Hkept : fs w1 !! train_cache_path = fs wa !! train_cache_path).
  { destruct (tokenize_with_cache_files _ _ _ _ _ _ _ _ _ Hb)
      as [-> | (enc & _ & ->)]; [done|].
    by rewrite lookup_insert_ne. }
  unfold prepare_encodings, bind.
  rewrite (tokenize_with_cache_replay _ _ _ _ _ _ _ Ha _ _ _ w1 Hkept).
  rewrite (tokenize_with_cache_replay _ _ _ _ _ _ _ Hb _ _ _
             (add_events w1 [EvRead train_cache_path]) eq_refl).
  unfold ret. by rewrite add_events_app.
Qed.

End DataPreparationProperties.

(** The example tokenizer honours the padding contract on every text it
    accepts, and its ids fit 64 bits. *)
Lemma ref_tokenizer_pads m text :
  0 ≤ m → text ≠ "<fail>" → pads_to ref_tokenizer m text.
Proof.
  intros Hm Htext. unfold pads_to, ref_tokenizer.
  rewrite bool_decide_eq_false_2 by done.
  eexists _, _, _. split; [done|]. split; [done|]. split; [done|].
  rewrite !length_app, !length_replicate, length_take. lia.
Qed.

Lemma ref_tokenizer_fits m text : fits_int64 ref_tokenizer m text.
Proof.
  intros key s (encoding & Htok & Hkey). unfold ref_tokenizer in Htok.
  destruct (bool_decide (text = "<fail>")); [done|]. injection Htok as <-.
  apply Is_true_true, forallb_True, Forall_forall. intros z Hz.
  assert (0 ≤ z < 256) as Hrange.
  2:{ apply Is_true_true, andb_true_intro.
      split; [apply Z.leb_le|apply Z.ltb_lt]; lia. }
  destruct (decide (key = "input_ids")) as [->|Hk1].
  - rewrite lookup_insert_eq in Hkey. injection Hkey as <-.
    apply elem_of_app in Hz as [Hz%elem_of_take | Hz%elem_of_replicate].
    + destruct Hz as (i & Hz & _). apply list_lookup_fmap_Some in Hz
        as (c & -> & _). pose proof (N_ascii_bounded c). lia.
    + destruct Hz as [-> _]. lia.
  - rewrite lookup_insert_ne in Hkey by done.
    apply lookup_singleton_Some in Hkey as [<- <-].
    apply elem_of_app in Hz as [Hz%elem_of_replicate | Hz%elem_of_replicate];
      destruct Hz as [-> _]; lia.
Qed.

Lemma prepare_encodings_fresh_witness :
  ∃ train_encodings val_encodings w' evs,
    prepare_encodings ref_dumps ref_loads small_split ref_tokenizer empty_world
      = (Ok (train_encodings, val_encodings), w') ∧
    fs w' !! train_cache_path = Some (File (ref_dumps train_encodings)) ∧
    fs w' !! val_cache_path = Some (File (ref_dumps val_encodings)) ∧
    (∀ other, other ≠ train_cache_path → other ≠ val_cache_path →
              fs w' !! other = fs empty_world !! other) ∧
    trace w' = trace empty_world ++ evs ∧
    tokenizer_calls evs =
      (length (train_texts small_split) + length (val_texts small_split))%nat.
Proof.
  apply prepare_encodings_fresh.
  - left. reflexivity.
  - left. reflexivity.
  - repeat constructor; apply ref_tokenizer_pads; discriminate.
  - repeat constructor; apply ref_tokenizer_pads; discriminate.
Defined.

Lemma prepare_encodings_rerun_witness :
  prepare_encodings ref_dumps ref_loads example_split ref_tokenizer
    (add_events both_cached_world [EvRead train_cache_path; EvRead val_cache_path])
  = (Ok (example_encodings, example_encodings),
     add_events
       (add_events both_cached_world
          [EvRead train_cache_path; EvRead val_cache_path])
       [EvRead train_cache_path; EvRead val_cache_path]).
Proof.
  apply (prepare_encodings_rerun ref_dumps ref_loads ref_roundtrip ref_nonempty
           small_split ref_tokenizer both_cached_world).
  reflexivity.
Defined.

(** ** The dataset adapter: items *)

Lemma torch_tensor_list_ok l : forallb int64_range l = true →
  torch_tensor_list l = Ok (Vector l).
Proof. intros Hl. unfold torch_tensor_list. by rewrite Hl. Qed.

Lemma torch_tensor_list_range l t :
  torch_tensor_list l = Ok t → forallb int64_range l = true.
Proof. unfold torch_tensor_list. by destruct (forallb _ _). Qed.

Lemma torch_tensor_int_range z t :
  torch_tensor_int z = Ok t → int64_range z = true.
Proof. unfold torch_tensor_int. by destruct (int64_range _). Qed.

Lemma list_getitem_lookup {A} (l : list A) idx a :
  0 ≤ idx → (list_getitem l idx = Ok a ↔ l !! Z.to_nat idx = Some a).
Proof.
  intros Hidx. rewrite list_getitem_nonneg by done.
  destruct (l !! Z.to_nat idx); split; by intros [= ->].
Qed.

(** The item at a non-negative index whose entries exist and fit. *)
Lemma getitem_at (self : NewsDataset.t) idx all_ids all_masks ids mask label :
  NewsDataset.encodings self !! "input_ids" = Some all_ids →
  NewsDataset.encodings self !! "attention_mask" = Some all_masks →
  0 ≤ idx →
  all_ids !! Z.to_nat idx = Some ids →
  all_masks !! Z.to_nat idx = Some mask →
  NewsDataset.labels self !! Z.to_nat idx = Some label →
  forallb int64_range ids = true →
  forallb int64_range mask = true →
  int64_range (label + 1) = true →
  NewsDataset.__getitem__ self idx =
  Ok {[ "input_ids" := Vector ids; "attention_mask" := Vector mask;
        "labels" := Scalar (label + 1) ]}.
Proof.
  intros Hids Hmasks Hidx Hi Hm Hl Hri Hrm Hrl.
  unfold NewsDataset.__getitem__, dict_getitem.
  rewrite Hids, Hmasks. simpl.
  rewrite (proj2 (list_getitem_lookup all_ids idx ids Hidx) Hi). simpl.
  rewrite torch_tensor_list_ok by done. simpl.
  rewrite (proj2 (list_getitem_lookup all_masks idx mask Hidx) Hm). simpl.
  rewrite torch_tensor_list_ok by done. simpl.
  rewrite (proj2 (list_getitem_lookup _ idx label Hidx) Hl). simpl.
  unfold torch_tensor_int. by rewrite Hrl.
Qed.

(** X7 (what an item is).  At a non-negative index, [__getitem__] returns an
    item exactly when both arrays are present, both arrays and the labels
    have an entry at the index, and every value fits a 64-bit integer; the
    item then holds these two entries as tensors and the label plus one. *)
Theorem getitem_characterization (self : NewsDataset.t) idx item :
  0 ≤ idx →
  NewsDataset.__getitem__ self idx = Ok item ↔
  ∃ all_ids all_masks ids mask label,
    NewsDataset.encodings self !! "input_ids" = Some all_ids ∧
    NewsDataset.encodings self !! "attention_mask" = Some all_masks ∧
    all_ids !! Z.to_nat idx = Some ids ∧
    all_masks !! Z.to_nat idx = Some mask ∧
    NewsDataset.labels self !! Z.to_nat idx = Some label ∧
    forallb int64_range ids = true ∧
    forallb int64_range mask = true ∧
    int64_range (label + 1) = true ∧
    item = {[ "input_ids" := Vector ids; "attention_mask" := Vector mask;
              "labels" := Scalar (label + 1) ]}.
Proof.
  intros Hidx. split.
  - unfold NewsDataset.__getitem__. intros H.
    apply res_bind_ok_inv in H as (all_ids & Hall_ids%dict_getitem_ok_inv & H).
    apply res_bind_ok_inv in H as (ids & Hids & H).
    apply res_bind_ok_inv in H as (t1 & Ht1 & H).
    apply res_bind_ok_inv in H as (all_masks & Hall_masks%dict_getitem_ok_inv & H).
    apply res_bind_ok_inv in H as (mask & Hmask & H).
    apply res_bind_ok_inv in H as (t2 & Ht2 & H).
    apply res_bind_ok_inv in H as (label & Hlabel & H).
    apply res_bind_ok_inv in H as (t3 & Ht3 & H).
    injection H as <-.
    exists all_ids, all_masks, ids, mask, label.
    rewrite <- !list_getitem_lookup by done.
    rewrite (torch_tensor_list_ok_inv _ _ Ht1), (torch_tensor_list_ok_inv _ _ Ht2),
      (torch_tensor_int_ok_inv _ _ Ht3).
    repeat split; try done;
      eauto using torch_tensor_list_range, torch_tensor_int_range.
  - intros (all_ids & all_masks & ids & mask & label &
            H1 & H2 & H3 & H4 & H5 & H6 & H7 & H8 & ->).
    by eapply getitem_at.
Qed.

Lemma getitem_characterization_witness :
  NewsDataset.__getitem__ example_dataset 1 =
    Ok {[ "input_ids" := Vector [99; 1; 1]; "attention_mask" := Vector [1; 0; 0];
          "labels" := Scalar (1 + 1) ]} ↔
  ∃ all_ids all_masks ids mask label,
    NewsDataset.encodings example_dataset !! "input_ids" = Some all_ids ∧
    NewsDataset.encodings example_dataset !! "attention_mask" = Some all_masks ∧
    all_ids !! Z.to_nat 1 = Some ids ∧
    all_masks !! Z.to_nat 1 = Some mask ∧
    NewsDataset.labels example_dataset !! Z.to_nat 1 = Some label ∧
    forallb int64_range ids = true ∧
    forallb int64_range mask = true ∧
    int64_range (label + 1) = true ∧
    {[ "input_ids" := Vector [99; 1; 1]; "attention_mask" := Vector [1; 0; 0];
       "labels" := Scalar (1 + 1) ]}
    = ({[ "input_ids" := Vector ids; "attention_mask" := Vector mask;
          "labels" := Scalar (label + 1) ]} : gmap string tensor).
Proof.
  apply (getitem_characterization example_dataset 1). lia.
Defined.

(** X8 (bounds).  [__getitem__] returns an item only at an index between
    [- __len__] and [__len__ - 1]: outside this range it raises, however
    long the encoding arrays are. *)
Theorem getitem_within_bounds (self : NewsDataset.t) idx :
  is_Ok (NewsDataset.__getitem__ self idx) →
  - NewsDataset.__len__ self ≤ idx < NewsDataset.__len__ self.
Proof.
  intros [item Hitem].
  apply getitem_ok_inv in Hitem
    as (? & ? & ? & ? & label & _ & _ & _ & _ & Hlabel & _).
  apply list_getitem_ok_inv in Hlabel. by unfold NewsDataset.__len__.
Qed.

Lemma getitem_within_bounds_witness :
  - NewsDataset.__len__ example_dataset ≤ 1 < NewsDataset.__len__ example_dataset.
Proof.
  apply getitem_within_bounds. eexists. reflexivity.
Defined.

Lemma list_getitem_negative {A} (l : list A) idx :
  - Z.of_nat (length l) ≤ idx < 0 →
  list_getitem l idx = list_getitem l (idx + Z.of_nat (length l)).
Proof.
  intros Hidx. unfold list_getitem.
  destruct (idx <? 0) eqn:Hneg; [|lia].
  destruct (idx + Z.of_nat (length l) <? 0) eqn:Hneg'; [lia|]. done.
Qed.

(** X9 (negative indices).  When both arrays are as long as the label list,
    a negative index [idx] no smaller than [- __len__] names the same item
    as [idx + __len__]: indices count from the end, as for a Python list. *)
Theorem getitem_negative_index (self : NewsDataset.t) all_ids all_masks idx :
  NewsDataset.encodings self !! "input_ids" = Some all_ids →
  NewsDataset.encodings self !! "attention_mask" = Some all_masks →
  length all_ids = length (NewsDataset.labels self) →
  length all_masks = length (NewsDataset.labels self) →
  - NewsDataset.__len__ self ≤ idx < 0 →
  NewsDataset.__getitem__ self idx =
  NewsDataset.__getitem__ self (idx + NewsDataset.__len__ self).
Proof.
  intros Hids Hmasks Hli Hlm Hidx. unfold NewsDataset.__len__ in *.
  unfold NewsDataset.__getitem__, dict_getitem. rewrite Hids, Hmasks. simpl.
  rewrite (list_getitem_negative all_ids), (list_getitem_negative all_masks),
    (list_getitem_negative (NewsDataset.labels self)) by lia.
  by rewrite Hli, Hlm.
Qed.

Lemma getitem_negative_index_witness :
  NewsDataset.__getitem__ example_dataset (-1) =
  NewsDataset.__getitem__ example_dataset (-1 + NewsDataset.__len__ example_dataset).
Proof.
  apply (getitem_negative_index example_dataset
           [[97; 98; 1]; [99; 1; 1]] [[1; 1; 0]; [1; 0; 0]]);
    try reflexivity.
  unfold NewsDataset.__len__. simpl. lia.
Defined.

(** ** From the fresh caches to the datasets *)

(** A dataset over arrays that hold the tokenizer's fields of [texts], with
    as many labels as texts: every index in range yields the item of its
    text and label. *)
Lemma fresh_dataset_items tok m texts labels all_ids all_masks :
  Forall2 (field_of tok m "input_ids") texts all_ids →
  Forall2 (field_of tok m "attention_mask") texts all_masks →
  Forall (λ s, Z.of_nat (length s) = m) all_ids →
  Forall (λ s, Z.of_nat (length s) = m) all_masks →
  Forall (fits_int64 tok m) texts →
  Forall (λ l, l ∈ [-1; 0; 1]) labels →
  length labels = length texts →
  ∀ idx,
    0 ≤ idx < NewsDataset.__len__
                (NewsDataset.__init__ (make_encodings all_ids all_masks) labels) →
    ∃ item,
      NewsDataset.__getitem__
        (NewsDataset.__init__ (make_encodings all_ids all_masks) labels) idx
      = Ok item ∧
      item_of tok m texts labels idx item.
Proof.
  intros Hids Hmasks Hli Hlm Hfit Hlabels Hlen idx Hidx.
  unfold NewsDataset.__len__ in Hidx. simpl in Hidx.
  destruct (lookup_lt_is_Some_2 texts (Z.to_nat idx)) as [text Htext]; [lia|].
  destruct (lookup_lt_is_Some_2 labels (Z.to_nat idx)) as [label Hlabel]; [lia|].
  destruct (Forall2_lookup_l _ _ _ _ _ Hids Htext) as (ids & Hi & Hfi).
  destruct (Forall2_lookup_l _ _ _ _ _ Hmasks Htext) as (mask & Hm & Hfm).
  pose proof (proj1 (Forall_lookup _ _) Hfit _ _ Htext) as Hfits.
  pose proof (proj1 (Forall_lookup _ _) Hlabels _ _ Hlabel) as Hl.
  eexists. split.
  - apply (getitem_at _ idx all_ids all_masks ids mask label);
      try done; [lia|by eapply Hfits|by eapply Hfits|].
    repeat (apply elem_of_cons in Hl as [-> | Hl]; [done|]).
    by apply elem_of_nil in Hl.
  - exists text, ids, mask, label. repeat split; try done.
    + apply (proj1 (Forall_lookup _ _) Hli _ _ Hi).
    + apply (proj1 (Forall_lookup _ _) Hlm _ _ Hm).
Qed.

Section DatasetsAfterPreparation.

Variable pickle_dumps : Encodings → list byte.
Variable pickle_loads : list byte → option Encodings.

(** X6 (the datasets of a fresh run).  When neither cache path holds a file
    with content, the tokenizer honours its contract with 64-bit ids on
    every text, every label is in {-1, 0, 1} and each split has as many
    labels as texts, the two calls succeed and, in both datasets built from
    their results, every index from 0 to [__len__ - 1] yields an item: the
    two fields of the tokenizer's output on the text at that index, each of
    [max_length] entries, and the label at that index plus one. *)
Theorem datasets_of_fresh_run (s : Split) tok w :
  fs w !! train_cache_path = None ∨ fs w !! train_cache_path = Some (File []) →
  fs w !! val_cache_path = None ∨ fs w !! val_cache_path = Some (File []) →
  Forall (pads_to tok max_length) (train_texts s ++ val_texts s) →
  Forall (fits_int64 tok max_length) (train_texts s ++ val_texts s) →
  Forall (λ l, l ∈ [-1; 0; 1]) (train_labels s ++ val_labels s) →
  length (train_labels s) = length (train_texts s) →
  length (val_labels s) = length (val_texts s) →
  ∃ encodings w',
    prepare_encodings pickle_dumps pickle_loads s tok w = (Ok encodings, w') ∧
    (∀ idx, 0 ≤ idx < NewsDataset.__len__ (make_datasets s encodings).1 →
       ∃ item,
         NewsDataset.__getitem__ (make_datasets s encodings).1 idx = Ok item ∧
         item_of tok max_length (train_texts s) (train_labels s) idx item) ∧
    (∀ idx, 0 ≤ idx < NewsDataset.__len__ (make_datasets s encodings).2 →
       ∃ item,
         NewsDataset.__getitem__ (make_datasets s encodings).2 idx = Ok item ∧
         item_of tok max_length (val_texts s) (val_labels s) idx item).
Proof.
  intros Htrain Hval [Hpt Hpv]%Forall_app [Hft Hfv]%Forall_app
    [Hlt Hlv]%Forall_app Hnt Hnv.
  unfold prepare_encodings, bind.
  destruct (tokenize_with_cache_fresh pickle_dumps pickle_loads _ tok
              max_length _ w Htrain Hpt)
    as (ids1 & masks1 & evs1 & -> & Hi1 & Hm1 & Hli1 & Hlm1 & _).
  set (w1 := mkWorld _ _).
  assert (Hval1 : fs w1 !! val_cache_path = None ∨
                  fs w1 !! val_cache_path = Some (File [])).
  { unfold w1. simpl. by rewrite lookup_insert_ne. }
  destruct (tokenize_with_cache_fresh pickle_dumps pickle_loads _ tok
              max_length _ w1 Hval1 Hpv)
    as (ids2 & masks2 & evs2 & -> & Hi2 & Hm2 & Hli2 & Hlm2 & _).
  unfold ret. eexists _, _. split; [done|].
  unfold make_datasets. simpl.
  split; by apply fresh_dataset_items.
Qed.

End DatasetsAfterPreparation.

Lemma datasets_of_fresh_run_witness :
  ∃ encodings w',
    prepare_encodings ref_dumps ref_loads small_split ref_tokenizer empty_world
      = (Ok encodings, w') ∧
    (∀ idx, 0 ≤ idx < NewsDataset.__len__ (make_datasets small_split encodings).1 →
       ∃ item,
         NewsDataset.__getitem__ (make_datasets small_split encodings).1 idx
           = Ok item ∧
         item_of ref_tokenizer max_length (train_texts small_split)
           (train_labels small_split) idx item) ∧
    (∀ idx, 0 ≤ idx < NewsDataset.__len__ (make_datasets small_split encodings).2 →
       ∃ item,
         NewsDataset.__getitem__ (make_datasets small_split encodings).2 idx
           = Ok item ∧
         item_of ref_tokenizer max_length (val_texts small_split)
           (val_labels small_split) idx item).
Proof.
  apply datasets_of_fresh_run.
  - left. reflexivity.
  - left. reflexivity.
  - repeat constructor; apply ref_tokenizer_pads; discriminate.
  - repeat constructor; apply ref_tokenizer_fits.
  - apply (bool_decide_unpack _). reflexivity.
  - reflexivity.
  - reflexivity.
Defined.

(** ** Class weights: when they exist *)

Lemma forallb_bool_decide_inv {A} (P : A → Prop) `{∀ x, Decision (P x)} l :
  forallb (λ x, bool_decide (P x)) l = true → Forall P l.
Proof.
  induction l as [|x l IH]; [constructor|].
  simpl. intros [Hx Hl]%andb_true_iff. constructor; [|by apply IH].
  by apply bool_decide_eq_true in Hx.
Qed.

Section ClassWeightsMore.
Context `{RoundingLaws}.

(** X10 (when the weights exist).  The class weights are computed exactly
    when every training label is one of -1, 0, 1 and each of the three
    classes has at least one training example; in every other case the
    computation raises [ValueError]. *)
Theorem class_weights_defined (s : Split) :
  (Forall (λ l, l ∈ [-1; 0; 1]) (train_labels s) ∧
   -1 ∈ train_labels s ∧ 0 ∈ train_labels s ∧ 1 ∈ train_labels s →
   is_Ok (class_weights s)) ∧
  (¬ (Forall (λ l, l ∈ [-1; 0; 1]) (train_labels s) ∧
      -1 ∈ train_labels s ∧ 0 ∈ train_labels s ∧ 1 ∈ train_labels s) →
   class_weights s = Raise ValueError).
Proof.
  split.
  - intros (Hall & Hm & Hz & Hp). unfold class_weights.
    rewrite compute_class_weight_three; [by eexists|done|..];
      by apply count_of_pos.
  - intros Hnot. unfold class_weights, compute_class_weight.
    destruct (forallb (λ v, bool_decide (v ∈ [-1; 0; 1])) (train_labels s))
      eqn:Hcover; [|done].
    cbv beta iota zeta delta [negb].
    destruct (forallb (λ c, bool_decide (c ∈ np_unique (train_labels s)))
                [-1; 0; 1]) eqn:Hseen; [|done].
    destruct Hnot.
    apply (forallb_bool_decide_inv (λ v, v ∈ [-1; 0; 1])) in Hcover.
    apply (forallb_bool_decide_inv (λ c, c ∈ np_unique (train_labels s)))
      in Hseen.
    split; [done|].
    apply Forall_cons in Hseen as [Hm Hseen].
    apply Forall_cons in Hseen as [Hz Hseen].
    apply Forall_cons in Hseen as [Hp _].
    repeat split; by apply np_unique_elem.
Qed.

(** X11 (a balanced split).  When the three classes have the same number
    [a > 0] of training examples (with [3 * a] at most 2^53), every class
    weight is exactly 1. *)
Theorem class_weights_balanced (s : Split) (a : Z) :
  Forall (λ l, l ∈ [-1; 0; 1]) (train_labels s) →
  count_of (-1) (train_labels s) = a →
  count_of 0 (train_labels s) = a →
  count_of 1 (train_labels s) = a →
  0 < a → 3 * a ≤ 2 ^ 53 →
  class_weights s = Ok [1%Qc; 1%Qc; 1%Qc].
Proof.
  intros Hall Hm Hz Hp Ha Hbound. unfold class_weights.
  rewrite compute_class_weight_three by (done || lia).
  rewrite (length_three_classes _ Hall), Hm, Hz, Hp.
  assert (Hone : weight_of (a + a + a) a = 1%Qc).
  { unfold weight_of, fmul.
    rewrite (of_int_small 3), (of_int_small a), Z2Qc_mul by lia.
    replace (a + a + a) with (3 * a) by lia.
    change (round64 (Z2Qc (3 * a))) with (of_int (3 * a)).
    apply fdiv_diag, not_eq_sym, Qclt_not_eq, of_int_pos. lia. }
  by rewrite Hone.
Qed.

End ClassWeightsMore.

Lemma class_weights_defined_witness :
  is_Ok (@class_weights exact_rounding example_split) ∧
  @class_weights exact_rounding lopsided_split = Raise ValueError.
Proof.
  split.
  - apply (proj1 (@class_weights_defined exact_rounding example_split)).
    split; [|repeat split]; apply (bool_decide_unpack _); reflexivity.
  - apply (proj2 (@class_weights_defined exact_rounding lopsided_split)).
    intros (_ & _ & _ & Hp). revert Hp. apply (bool_decide_unpack _).
    reflexivity.
Defined.

Lemma class_weights_balanced_witness :
  @class_weights exact_rounding balanced_split = Ok [1%Qc; 1%Qc; 1%Qc].
Proof.
  apply (@class_weights_balanced exact_rounding exact_rounding_laws
           balanced_split 1); try reflexivity.
  - apply (bool_decide_unpack _). reflexivity.
  - discriminate.
Defined.

(** ** The weighted trainer: failures and what the loss depends on *)

Section WeightedTrainerMore.

Variable FloatTensor : Type.
Variable Device : Type.
Variable tensor_to : FloatTensor → Device → FloatTensor.
Variable CrossEntropyLoss : FloatTensor → FloatTensor → FloatTensor → Res FloatTensor.

Abbreviation loss_of' := (compute_loss FloatTensor Device tensor_to CrossEntropyLoss).

(** The loss of a call, in terms of what the forward pass returned. *)
Lemma compute_loss_loss_part (self : WeightedTrainer FloatTensor)
    (model : Model FloatTensor Device) inputs flag :
  loss_part (loss_of' self model inputs flag) =
  outputs ← forward _ _ model inputs;
  weight ← match trainer_class_weights _ self with
           | Some w => Ok (tensor_to w (device _ _ model))
           | None => Raise AttributeError
           end;
  match outputs !! "logits", inputs !! "labels" with
  | Some lg, Some lb => CrossEntropyLoss weight lg lb
  | _, _ => Raise TypeError
  end.
Proof.
  unfold compute_loss.
  destruct (forward _ _ model inputs) as [outputs|e]; [|done]. simpl.
  destruct (trainer_class_weights _ self) as [w|]; [|done]. simpl.
  destruct (outputs !! "logits") as [lg|], (inputs !! "labels") as [lb|];
    try done.
  destruct (CrossEntropyLoss _ lg lb) as [loss|e]; [|done].
  by destruct flag.
Qed.

(** X12 (the flag changes only the shape of the result).  With and without
    [return_outputs], [compute_loss] fails in the same way or returns the
    same loss; when it returns outputs, they are the outputs of the forward
    pass on the batch. *)
Theorem compute_loss_flag_independent (self : WeightedTrainer FloatTensor)
    (model : Model FloatTensor Device) inputs :
  loss_part (loss_of' self model inputs true) =
  loss_part (loss_of' self model inputs false) ∧
  (∀ loss outputs,
     loss_of' self model inputs true = Ok (LossAndOutputs _ loss outputs) →
     forward _ _ model inputs = Ok outputs) ∧
  (∀ loss, loss_of' self model inputs true ≠ Ok (LossOnly _ loss)) ∧
  (∀ loss outputs,
     loss_of' self model inputs false ≠ Ok (LossAndOutputs _ loss outputs)).
Proof.
  split; [by rewrite !compute_loss_loss_part|].
  unfold compute_loss.
  destruct (forward _ _ model inputs) as [outputs|e];
    [|repeat split; intros; done].
  simpl. destruct (trainer_class_weights _ self) as [w|];
    [|repeat split; intros; done].
  simpl.
  destruct (outputs !! "logits") as [lg|], (inputs !! "labels") as [lb|];
    try (repeat split; intros; done).
  destruct (CrossEntropyLoss _ lg lb) as [loss|e];
    [|repeat split; intros; done].
  simpl. repeat split; intros; try done. congruence.
Qed.

(** X13 (how the loss computation fails).  When the forward pass succeeds:
    a trainer built without class weights raises [AttributeError]; with
    class weights, a batch without labels, or outputs without logits, raises
    [TypeError].  A failing forward pass is reported first, whatever else is
    missing. *)
Theorem compute_loss_failures (self : WeightedTrainer FloatTensor)
    (model : Model FloatTensor Device) inputs flag :
  (∀ e, forward _ _ model inputs = Raise e →
        loss_of' self model inputs flag = Raise e) ∧
  (∀ outputs, forward _ _ model inputs = Ok outputs →
     (trainer_class_weights _ self = None →
      loss_of' self model inputs flag = Raise AttributeError) ∧
     (∀ w, trainer_class_weights _ self = Some w →
           inputs !! "labels" = None ∨ outputs !! "logits" = None →
           loss_of' self model inputs flag = Raise TypeError)).
Proof.
  split.
  - intros e Hfwd. unfold compute_loss. by rewrite Hfwd.
  - intros outputs Hfwd. unfold compute_loss. rewrite Hfwd. simpl. split.
    + by intros ->.
    + intros w -> Hmissing. simpl.
      destruct Hmissing as [-> | ->]; [|done].
      by destruct (outputs !! "logits").
Qed.

(** X14 (what the loss depends on).  Two models on the same device whose
    outputs on the batch have the same logits give the same loss, whatever
    else their outputs hold: a loss that the model computed itself is not
    used. *)
Theorem compute_loss_uses_logits_only (self : WeightedTrainer FloatTensor)
    (model1 model2 : Model FloatTensor Device) inputs outputs1 outputs2 flag :
  device _ _ model1 = device _ _ model2 →
  forward _ _ model1 inputs = Ok outputs1 →
  forward _ _ model2 inputs = Ok outputs2 →
  outputs1 !! "logits" = outputs2 !! "logits" →
  loss_part (loss_of' self model1 inputs flag) =
  loss_part (loss_of' self model2 inputs flag).
Proof.
  intros Hdev Hfwd1 Hfwd2 Hlogits.
  rewrite !compute_loss_loss_part, Hfwd1, Hfwd2. simpl.
  by rewrite Hdev, Hlogits.
Qed.

End WeightedTrainerMore.

Lemma compute_loss_flag_independent_witness :
  loss_part (compute_loss sym_tensor string SymTo sym_loss sym_trainer sym_model
               sym_batch true) =
  loss_part (compute_loss sym_tensor string SymTo sym_loss sym_trainer sym_model
               sym_batch false) ∧
  forward _ _ sym_model sym_batch =
    Ok {[ "loss" := Sym "model_loss"; "logits" := Sym "logits" ]}.
Proof.
  split.
  - apply (compute_loss_flag_independent sym_tensor string SymTo sym_loss
             sym_trainer sym_model sym_batch).
  - apply (proj1 (proj2 (compute_loss_flag_independent sym_tensor string SymTo
             sym_loss sym_trainer sym_model sym_batch))
             (SymLoss (SymTo (Sym "class_weights") "cuda:0") (Sym "logits")
                      (Sym "labels"))).
    reflexivity.
Defined.

Lemma compute_loss_failures_witness :
  compute_loss sym_tensor string SymTo sym_loss sym_trainer sym_model ∅ true
    = Raise TypeError ∧
  compute_loss sym_tensor string SymTo sym_loss (mkWeightedTrainer _ None)
    sym_model sym_batch false = Raise AttributeError ∧
  compute_loss sym_tensor string SymTo sym_loss sym_trainer sym_model
    sym_unlabelled_batch false = Raise TypeError.
Proof.
  split; [|split].
  - apply (proj1 (compute_loss_failures sym_tensor string SymTo sym_loss
                    sym_trainer sym_model ∅ true)).
    reflexivity.
  - apply (proj1 (proj2 (compute_loss_failures sym_tensor string SymTo sym_loss
                    (mkWeightedTrainer _ None) sym_model sym_batch false)
                    sym_outputs eq_refl)).
    reflexivity.
  - apply (proj2 (proj2 (compute_loss_failures sym_tensor string SymTo sym_loss
                    sym_trainer sym_model sym_unlabelled_batch false)
                    sym_outputs eq_refl) (Sym "class_weights") eq_refl).
    left. reflexivity.
Defined.

Lemma compute_loss_uses_logits_only_witness :
  loss_part (compute_loss sym_tensor string SymTo sym_loss sym_trainer sym_model
               sym_batch true) =
  loss_part (compute_loss sym_tensor string SymTo sym_loss sym_trainer
               sym_model2 sym_batch true).
Proof.
  apply (compute_loss_uses_logits_only sym_tensor string SymTo sym_loss
           sym_trainer sym_model sym_model2 sym_batch
           {[ "loss" := Sym "model_loss"; "logits" := Sym "logits" ]}
           {[ "loss" := Sym "another_loss"; "logits" := Sym "logits";
              "hidden_states" := Sym "hidden" ]});
    reflexivity.
Defined.

(** ** Metrics: range, dependence on the logits, failures *)

Lemma count_where_bounds P y_true y_pred :
  0 ≤ count_where P y_true y_pred ≤ Z.of_nat (length y_true).
Proof.
  unfold count_where. split; [lia|]. apply inj_le.
  etrans; [apply length_filter|].
  unfold zip. revert y_pred.
  induction y_true as [|t y_true IH]; intros [|p y_pred]; simpl; try lia.
  specialize (IH y_pred). lia.
Qed.

Lemma count_where_both_le l y_true y_pred :
  count_where (λ t p, (t =? l) && (p =? l)) y_true y_pred ≤ count_of l y_true ∧
  count_where (λ t p, (t =? l) && (p =? l)) y_true y_pred ≤ count_of l y_pred.
Proof.
  unfold count_where, count_of.
  assert (Hnat :
    (length (filter (λ tp : Z * Z, (tp.1 =? l)%Z && (tp.2 =? l)%Z)
               (zip y_true y_pred))
     ≤ length (filter (λ v, v = l) y_true))%nat ∧
    (length (filter (λ tp : Z * Z, (tp.1 =? l)%Z && (tp.2 =? l)%Z)
               (zip y_true y_pred))
     ≤ length (filter (λ v, v = l) y_pred))%nat); [|lia].
  unfold zip. revert y_pred.
  induction y_true as [|t y_true IH]; intros [|p y_pred]; cbn [zip_with].
  - split; apply Nat.le_0_l.
  - split; apply Nat.le_0_l.
  - split; apply Nat.le_0_l.
  - rewrite !filter_cons. cbn [fst snd]. specialize (IH y_pred).
    destruct (decide (t = l)) as [->|Ht], (decide (p = l)) as [->|Hp];
      rewrite ?Z.eqb_refl, ?(proj2 (Z.eqb_neq _ _) Ht),
        ?(proj2 (Z.eqb_neq _ _) Hp);
      simpl; lia.
Qed.

Lemma mapM_np_argmax_shape rows :
  Forall (λ row, length row = 3%nat) rows →
  ∃ ks, mapM np_argmax rows = Ok ks ∧ length ks = length rows ∧
        Forall (λ k, (k < 3)%nat) ks.
Proof.
  induction 1 as [|row rows Hrow _ (ks & IH & Hlen & Hks)].
  - by exists [].
  - destruct row as [|x rest]; [done|].
    exists (argmax_from 0 x 1 rest :: ks). simpl. rewrite IH. simpl.
    split; [done|]. split; [by rewrite Hlen|]. constructor; [|done].
    pose proof (argmax_from_bound rest 0%nat x 1%nat). simpl in Hrow. lia.
Qed.

Lemma np_sub_positions ks :
  Forall (λ k, (k < 3)%nat) ks →
  Forall (λ l, l ∈ [-1; 0; 1]) (np_sub (Z.of_nat <$> ks) 1).
Proof.
  induction 1 as [|k ks Hk _ IH]; [constructor|].
  simpl. constructor; [|done]. rewrite wrap64_small by lia.
  assert (Z.of_nat k = 0 ∨ Z.of_nat k = 1 ∨ Z.of_nat k = 2)
    as [-> | [-> | ->]] by lia; apply (bool_decide_unpack _); reflexivity.
Qed.

Lemma np_sub_labels ls :
  Forall (λ l, l ∈ [0; 1; 2]) ls →
  Forall (λ l, l ∈ [-1; 0; 1]) (np_sub ls 1).
Proof.
  induction 1 as [|l ls Hl _ IH]; [constructor|].
  simpl. constructor; [|done].
  repeat (apply elem_of_cons in Hl as [-> | Hl];
          [apply (bool_decide_unpack _); reflexivity|]).
  by apply elem_of_nil in Hl.
Qed.

Lemma length_np_sub a c : length (np_sub a c) = length a.
Proof. unfold np_sub. by rewrite length_map. Qed.

(** Labels taken among three classes: at most three are present. *)
Lemma np_unique_at_most_three y :
  Forall (λ l, l ∈ [-1; 0; 1]) y → (length (np_unique y) ≤ 3)%nat.
Proof.
  intros Hall.
  assert (Hle : (length (np_unique y) ≤ length [-1; 0; 1]%Z)%nat); [|done].
  apply submseteq_length, NoDup_submseteq; try apply np_unique_NoDup.
  intros l Hl. apply (proj1 (np_unique_elem _ _)) in Hl.
  by apply (proj1 (Forall_forall _ _) Hall).
Qed.

Section MetricsMore.
Context `{RoundingLaws}.

Lemma round64_0 : round64 0%Qc = 0%Qc.
Proof. change 0%Qc with (Z2Qc 0). by apply round64_int. Qed.

Lemma round64_1 : round64 1%Qc = 1%Qc.
Proof. change 1%Qc with (Z2Qc 1). by apply round64_int. Qed.

Lemma of_int_nonneg z : 0 ≤ z → (0 ≤ of_int z)%Qc.
Proof.
  intros Hz. rewrite <- round64_0. change 0%Qc with (Z2Qc 0).
  by apply of_int_mono.
Qed.

(** A quotient of floats [0 ≤ x ≤ y] with [0 < y] lies between 0 and 1. *)
Lemma fdiv_unit x y :
  (0 ≤ x)%Qc → (x ≤ y)%Qc → (0 < y)%Qc →
  (0 ≤ fdiv x y)%Qc ∧ (fdiv x y ≤ 1)%Qc.
Proof.
  intros Hx Hxy Hy. unfold fdiv. split.
  - rewrite <- round64_0. apply round64_mono. unfold Qcdiv.
    apply Qcmult_nonneg_nonneg; [done|]. by apply Qclt_le_weak, Qcinv_pos.
  - rewrite <- round64_1. apply round64_mono.
    rewrite <- (Qcdiv_diag y) by (by apply not_eq_sym, Qclt_not_eq).
    by apply Qcdiv_le_compat_r.
Qed.

Lemma fdiv_0_l y : fdiv 0%Qc y = 0%Qc.
Proof.
  unfold fdiv, Qcdiv. by rewrite Qcmult_0_l, round64_0.
Qed.

Lemma accuracy_score_unit y_true y_pred :
  length y_true = length y_pred → y_true ≠ [] →
  ∃ acc, accuracy_score y_true y_pred = Ok acc ∧ (0 ≤ acc)%Qc ∧ (acc ≤ 1)%Qc.
Proof.
  intros Hlen Hne. unfold accuracy_score.
  rewrite Hlen, Nat.eqb_refl, <- Hlen. simpl.
  destruct y_true as [|t y_true']; [done|].
  replace (length (t :: y_true') =? 0)%nat with false by done.
  eexists. split; [done|].
  pose proof (count_where_bounds Z.eqb (t :: y_true') y_pred) as [Hlo Hhi].
  apply fdiv_unit.
  - by apply of_int_nonneg.
  - by apply of_int_mono.
  - apply of_int_pos. rewrite length_cons. lia.
Qed.

Lemma f1_of_label_unit y_true y_pred l :
  (0 ≤ f1_of_label y_true y_pred l)%Qc ∧ (f1_of_label y_true y_pred l ≤ 1)%Qc.
Proof.
  unfold f1_of_label.
  pose proof (count_where_both_le l y_true y_pred) as [Htrue Hpred].
  pose proof (count_where_bounds (λ t p, (t =? l) && (p =? l)) y_true y_pred)
    as [Htp _].
  set (tp := count_where _ y_true y_pred) in *.
  destruct (count_of l y_true + count_of l y_pred =? 0) eqn:Hzero; [done|].
  apply Z.eqb_neq in Hzero.
  pose proof (count_of_nonneg l y_true). pose proof (count_of_nonneg l y_pred).
  set (x := of_int tp). set (t := of_int (count_of l y_true)).
  set (p := of_int (count_of l y_pred)).
  assert (Hx : round64 x = x) by apply of_int_fixed.
  assert (Ht : round64 t = t) by apply of_int_fixed.
  assert (Hx0 : (0 ≤ x)%Qc) by (by apply of_int_nonneg).
  assert (Hnum : fmul (fadd (Z2Qc 1) (Z2Qc 1)) x = (Z2Qc 2 * x)%Qc).
  { unfold fmul, fadd. rewrite Z2Qc_add. simpl.
    rewrite (round64_int 2) by done. by rewrite round64_double, Hx. }
  assert (Hden : fadd (fmul (Z2Qc 1) t) p = round64 (t + p)%Qc).
  { unfold fmul, fadd. change (Z2Qc 1) with 1%Qc. by rewrite Qcmult_1_l, Ht. }
  rewrite Hnum, Hden.
  assert (Hle : (Z2Qc 2 * x ≤ round64 (t + p))%Qc).
  { rewrite <- Hx at 1. rewrite <- round64_double. apply round64_mono.
    replace (Z2Qc 2 * x)%Qc with (x + x)%Qc
      by (change (Z2Qc 2) with (1 + 1)%Qc; ring).
    apply Qcplus_le_compat; by apply of_int_mono. }
  apply fdiv_unit; [|done|].
  - apply Qcmult_nonneg_nonneg; [|done]. by apply (Z2Qc_le 0 2).
  - eapply Qclt_le_trans; [|apply round64_mono]; [rewrite round64_1|];
      [done|].
    assert (1 ≤ count_of l y_true ∨ 1 ≤ count_of l y_pred) as [Hc|Hc] by lia.
    + rewrite <- (Qcplus_0_r 1). apply Qcplus_le_compat;
        [by apply of_int_ge_1|by apply of_int_nonneg].
    + rewrite <- (Qcplus_0_l 1). apply Qcplus_le_compat;
        [by apply of_int_nonneg|by apply of_int_ge_1].
Qed.

Lemma foldl_fadd_unit v : ∀ j s,
  Forall (λ f, (0 ≤ f)%Qc ∧ (f ≤ 1)%Qc) v →
  0 ≤ j → j + Z.of_nat (length v) ≤ 2 ^ 53 →
  (0 ≤ s)%Qc → (s ≤ Z2Qc j)%Qc →
  (0 ≤ foldl fadd s v)%Qc ∧ (foldl fadd s v ≤ Z2Qc (j + Z.of_nat (length v)))%Qc.
Proof.
  induction v as [|f v IH]; intros j s Hv Hj Hbound Hs0 Hsj.
  - simpl. by rewrite Z.add_0_r.
  - apply Forall_cons in Hv as [[Hf0 Hf1] Hv]. simpl foldl.
    rewrite length_cons, Nat2Z.inj_succ in *.
    replace (j + Z.succ (Z.of_nat (length v)))
      with ((j + 1) + Z.of_nat (length v)) by lia.
    apply IH; [done|lia|lia|..].
    + unfold fadd. rewrite <- round64_0. apply round64_mono.
      rewrite <- (Qcplus_0_r 0). by apply Qcplus_le_compat.
    + unfold fadd. rewrite <- (round64_int (j + 1)) by lia.
      apply round64_mono. rewrite <- Z2Qc_add.
      by apply Qcplus_le_compat.
Qed.

Lemma np_mean_unit v :
  Forall (λ f, (0 ≤ f)%Qc ∧ (f ≤ 1)%Qc) v →
  v ≠ [] → Z.of_nat (length v) ≤ 2 ^ 53 →
  (0 ≤ np_mean v)%Qc ∧ (np_mean v ≤ 1)%Qc.
Proof.
  intros Hv Hne Hbound. unfold np_mean.
  destruct (foldl_fadd_unit v 0 (Z2Qc 0) Hv) as [Hlo Hhi]; [lia|lia|done|done|].
  rewrite Z.add_0_l in Hhi.
  assert (0 < length v)%nat by (destruct v; [done|simpl; lia]).
  apply fdiv_unit; [done| |apply of_int_pos; lia].
  by rewrite of_int_small by lia.
Qed.

Lemma f1_score_macro_unit y_true y_pred :
  length y_true = length y_pred → y_true ≠ [] →
  Forall (λ l, l ∈ [-1; 0; 1]) y_true →
  Forall (λ l, l ∈ [-1; 0; 1]) y_pred →
  ∃ f1, f1_score_macro y_true y_pred = Ok f1 ∧ (0 ≤ f1)%Qc ∧ (f1 ≤ 1)%Qc.
Proof.
  intros Hlen Hne Htrue Hpred. unfold f1_score_macro.
  rewrite Hlen, Nat.eqb_refl, <- Hlen. simpl.
  destruct y_true as [|t y_true'] eqn:Ey; [done|].
  replace (length (t :: y_true') =? 0)%nat with false by done.
  rewrite <- Ey in *. eexists. split; [done|].
  pose proof (np_unique_at_most_three (y_true ++ y_pred)) as Hthree.
  apply np_mean_unit.
  - apply Forall_forall. intros f (l & -> & _)%list_elem_of_fmap.
    apply f1_of_label_unit.
  - assert (Ht : t ∈ np_unique (y_true ++ y_pred)).
    { rewrite np_unique_elem, Ey. apply elem_of_app. left. by left. }
    intros Hnil. apply fmap_nil_inv in Hnil. rewrite Hnil in Ht.
    by apply elem_of_nil in Ht.
  - rewrite length_map. specialize (Hthree ltac:(by apply Forall_app)). lia.
Qed.

(** X15 (range of the metrics).  For a non-empty logit matrix with three
    columns and as many labels, all in {0, 1, 2}, [compute_metrics] returns
    a mapping with exactly the keys [accuracy] and [f1], and both values lie
    between 0 and 1. *)
Theorem compute_metrics_range (pred : EvalPrediction) :
  predictions pred ≠ [] →
  Forall (λ row, length row = 3%nat) (predictions pred) →
  length (label_ids pred) = length (predictions pred) →
  Forall (λ l, l ∈ [0; 1; 2]) (label_ids pred) →
  ∃ (metrics : gmap string Qc) acc f1,
    compute_metrics pred = Ok metrics ∧
    dom metrics = {[ "accuracy"; "f1" ]} ∧
    metrics !! "accuracy" = Some acc ∧ metrics !! "f1" = Some f1 ∧
    (0 ≤ acc)%Qc ∧ (acc ≤ 1)%Qc ∧ (0 ≤ f1)%Qc ∧ (f1 ≤ 1)%Qc.
Proof.
  intros Hne Hshape Hlen Hlabels. unfold compute_metrics.
  destruct (mapM_np_argmax_shape _ Hshape) as (ks & -> & Hks & Hpos). simpl.
  assert (Hlens : length (np_sub (label_ids pred) 1) =
                  length (np_sub (Z.of_nat <$> ks) 1)).
  { rewrite !length_np_sub, length_fmap. congruence. }
  assert (Hy : np_sub (label_ids pred) 1 ≠ []).
  { intros Hnil. apply (f_equal length) in Hnil.
    rewrite length_np_sub, Hlen in Hnil.
    destruct (predictions pred); [done|]. done. }
  destruct (accuracy_score_unit _ _ Hlens Hy) as (acc & -> & Ha0 & Ha1).
  destruct (f1_score_macro_unit _ _ Hlens Hy) as (f1 & -> & Hf0 & Hf1);
    [by apply np_sub_labels|by apply np_sub_positions|].
  simpl. exists {[ "accuracy" := acc; "f1" := f1 ]}, acc, f1.
  split; [done|]. split; [|done].
  by rewrite dom_insert_L, dom_singleton_L.
Qed.

End MetricsMore.

Lemma compute_metrics_range_witness :
  ∃ (metrics : gmap string Qc) acc f1,
    @compute_metrics exact_rounding example_prediction = Ok metrics ∧
    dom metrics = {[ "accuracy"; "f1" ]} ∧
    metrics !! "accuracy" = Some acc ∧ metrics !! "f1" = Some f1 ∧
    (0 ≤ acc)%Qc ∧ (acc ≤ 1)%Qc ∧ (0 ≤ f1)%Qc ∧ (f1 ≤ 1)%Qc.
Proof.
  apply (@compute_metrics_range exact_rounding exact_rounding_laws).
  - discriminate.
  - repeat constructor.
  - reflexivity.
  - apply (bool_decide_unpack _). reflexivity.
Defined.

Lemma argmax_from_increasing (f : Qc → Qc) (row : list Qc) :
  (∀ p q : Qc, (p < q)%Qc ↔ (f p < f q)%Qc) →
  ∀ best_pos best pos,
    argmax_from best_pos (f best) pos (map f row) =
    argmax_from best_pos best pos row.
Proof.
  intros Hf. induction row as [|x rest IH]; intros best_pos best pos; [done|].
  simpl. rewrite <- (bool_decide_ext _ _ (Hf best x)).
  destruct (bool_decide (best < x)%Qc); apply IH.
Qed.

Lemma np_argmax_increasing (f : Qc → Qc) (row : list Qc) :
  (∀ p q : Qc, (p < q)%Qc ↔ (f p < f q)%Qc) →
  np_argmax (map f row) = np_argmax row.
Proof.
  intros Hf. destruct row as [|x rest]; [done|].
  simpl. by rewrite argmax_from_increasing.
Qed.

Lemma mapM_np_argmax_increasing (f : Qc → Qc) (rows : list (list Qc)) :
  (∀ p q : Qc, (p < q)%Qc ↔ (f p < f q)%Qc) →
  mapM np_argmax (map (map f) rows) = mapM np_argmax rows.
Proof.
  intros Hf. induction rows as [|row rows IH]; [done|].
  simpl. by rewrite np_argmax_increasing, IH.
Qed.

Lemma mapM_np_argmax_rel (R : nat → Z → Prop) rows ls :
  Forall2 (λ row l, ∃ k, np_argmax row = Ok k ∧ R k l) rows ls →
  ∃ ks, mapM np_argmax rows = Ok ks ∧ Forall2 R ks ls.
Proof.
  induction 1 as [|row l rows ls (k & Hk & HR) _ (ks & IH & HRs)].
  - by exists [].
  - exists (k :: ks). simpl. rewrite Hk, IH. split; [done|by constructor].
Qed.

Lemma mapM_np_argmax_empty_row rows :
  [] ∈ rows → mapM np_argmax rows = Raise ValueError.
Proof.
  induction rows as [|row rows IH]; [by intros ?%elem_of_nil|].
  intros Hin. simpl. destruct row as [|x rest]; [done|]. simpl.
  apply elem_of_cons in Hin as [?|Hin]; [done|]. by rewrite IH.
Qed.

Lemma count_where_none P y_true y_pred :
  Forall2 (λ t p, P t p = false) y_true y_pred →
  count_where P y_true y_pred = 0.
Proof.
  unfold count_where, zip.
  induction 1 as [|t p y_true y_pred Hp _ IH]; [done|].
  cbn [zip_with]. rewrite filter_cons. cbn [fst snd]. rewrite Hp.
  destruct (decide _) as [Hf|_]; [destruct Hf|exact IH].
Qed.

Section MetricsEdge.
Context `{RoundingLaws}.

(** X16 (only the order of the logits matters).  Applying a strictly
    increasing function to every logit, such as a positive scaling or a
    shift, changes nothing in the outcome of [compute_metrics]. *)
Theorem compute_metrics_increasing (f : Qc → Qc) (rows : list (list Qc)) labels :
  (∀ p q : Qc, (p < q)%Qc ↔ (f p < f q)%Qc) →
  compute_metrics (mkEvalPrediction (map (map f) rows) labels) =
  compute_metrics (mkEvalPrediction rows labels).
Proof.
  intros Hf. unfold compute_metrics. simpl.
  by rewrite mapM_np_argmax_increasing.
Qed.

Lemma of_int_0 : of_int 0 = 0%Qc.
Proof. unfold of_int. by rewrite round64_int. Qed.

Lemma f1_of_label_no_hit y_true y_pred l :
  count_where (λ t p, (t =? l) && (p =? l)) y_true y_pred = 0 →
  f1_of_label y_true y_pred l = 0%Qc.
Proof.
  intros Htp. unfold f1_of_label. rewrite Htp.
  destruct (_ =? 0); [done|].
  unfold fmul at 1. by rewrite of_int_0, Qcmult_0_r, round64_0, fdiv_0_l.
Qed.

Lemma np_mean_zeros k : np_mean (replicate k 0%Qc) = 0%Qc.
Proof.
  unfold np_mean.
  assert (Hsum : foldl fadd 0%Qc (replicate k 0%Qc) = 0%Qc).
  { induction k as [|k IH]; [done|]. simpl. unfold fadd at 2.
    by rewrite Qcplus_0_r, round64_0. }
  change (Z2Qc 0) with 0%Qc. by rewrite Hsum, fdiv_0_l.
Qed.

(** X17 (metrics when nothing is right).  For a non-empty logit matrix with
    three columns and labels in {0, 1, 2}, none of which is the arg-max of
    its row, [compute_metrics] returns accuracy 0 and macro-averaged F1 0. *)
Theorem compute_metrics_all_wrong (pred : EvalPrediction) :
  predictions pred ≠ [] →
  Forall (λ row, length row = 3%nat) (predictions pred) →
  Forall (λ l, l ∈ [0; 1; 2]) (label_ids pred) →
  Forall2 (λ row l, ∃ k, np_argmax row = Ok k ∧ Z.of_nat k ≠ l)
          (predictions pred) (label_ids pred) →
  compute_metrics pred = Ok {[ "accuracy" := 0%Qc; "f1" := 0%Qc ]}.
Proof.
  intros Hne Hshape Hlabels Hmiss. unfold compute_metrics.
  destruct (mapM_np_argmax_shape _ Hshape) as (ks & Hks & Hlen & Hpos).
  destruct (mapM_np_argmax_rel _ _ _ Hmiss) as (ks' & Hks' & Hrel).
  rewrite Hks in Hks'. injection Hks' as <-. rewrite Hks. simpl.
  set (y_true := np_sub (label_ids pred) 1).
  set (y_pred := np_sub (Z.of_nat <$> ks) 1).
  assert (Hdiff : Forall2 (λ t p, t ≠ p) y_true y_pred).
  { unfold y_true, y_pred. clear -Hrel Hpos Hlabels.
    induction Hrel as [|k l ks ls Hkl _ IH]; [constructor|].
    apply Forall_cons in Hpos as [Hk Hpos].
    apply Forall_cons in Hlabels as [Hl Hlabels].
    simpl. constructor; [|by apply IH].
    assert (0 ≤ l ≤ 2).
    { repeat (apply elem_of_cons in Hl as [-> | Hl]; [lia|]).
      by apply elem_of_nil in Hl. }
    rewrite !wrap64_small by lia. lia. }
  assert (Hlens : length y_true = length y_pred) by (by eapply Forall2_length).
  assert (Hy : y_true ≠ []).
  { intros Hnil. apply (f_equal length) in Hnil.
    rewrite Hlens in Hnil. unfold y_pred in Hnil.
    rewrite length_np_sub, length_fmap, Hlen in Hnil.
    by destruct (predictions pred). }
  assert (Hacc : accuracy_score y_true y_pred = Ok 0%Qc).
  { unfold accuracy_score. rewrite Hlens, Nat.eqb_refl, <- Hlens. simpl.
    destruct y_true as [|t y_true']; [done|].
    replace (length (t :: y_true') =? 0)%nat with false by done.
    rewrite count_where_none.
    - by rewrite of_int_0, fdiv_0_l.
    - eapply Forall2_impl; [exact Hdiff|]. intros a b Hab. by apply Z.eqb_neq. }
  assert (Hf1 : f1_score_macro y_true y_pred = Ok 0%Qc).
  { unfold f1_score_macro. rewrite Hlens, Nat.eqb_refl, <- Hlens. simpl.
    destruct y_true as [|t y_true'] eqn:Ey; [done|].
    replace (length (t :: y_true') =? 0)%nat with false by done.
    rewrite <- Ey in *. f_equal.
    change (map ?f ?l) with (f <$> l).
    rewrite (fmap_const_replicate _ 0%Qc); [apply np_mean_zeros|].
    intros l _. apply f1_of_label_no_hit, count_where_none.
    eapply Forall2_impl; [exact Hdiff|]. intros a b Hab. simpl.
    destruct (a =? l) eqn:Ha, (b =? l) eqn:Hb; try done.
    apply Z.eqb_eq in Ha, Hb. congruence. }
  by rewrite Hacc, Hf1.
Qed.

(** X18 (how the metrics fail).  A logit matrix with a row without entries
    makes [compute_metrics] raise [ValueError]; so does a matrix of
    non-empty rows whose number differs from the number of labels. *)
Theorem compute_metrics_failures (pred : EvalPrediction) :
  ([] ∈ predictions pred → compute_metrics pred = Raise ValueError) ∧
  (Forall (λ row, row ≠ []) (predictions pred) →
   length (label_ids pred) ≠ length (predictions pred) →
   compute_metrics pred = Raise ValueError).
Proof.
  split.
  - intros Hrow. unfold compute_metrics.
    by rewrite mapM_np_argmax_empty_row.
  - intros Hrows Hlen. unfold compute_metrics.
    assert (Hks : ∃ ks, mapM np_argmax (predictions pred) = Ok ks ∧
                        length ks = length (predictions pred)).
    { clear Hlen. induction Hrows as [|row rows Hrow _ (ks & IH & Hn)].
      - by exists [].
      - destruct row as [|x rest]; [done|].
        eexists (_ :: ks). simpl. rewrite IH. simpl. by rewrite Hn. }
    destruct Hks as (ks & -> & Hks). simpl.
    unfold accuracy_score. rewrite !length_np_sub, length_fmap, Hks.
    by rewrite (proj2 (Nat.eqb_neq _ _) Hlen).
Qed.

End MetricsEdge.

Lemma compute_metrics_increasing_witness :
  @compute_metrics exact_rounding
    (mkEvalPrediction
       (map (map (λ q, Z2Qc 2 * q + Z2Qc 1)%Qc) (predictions example_prediction))
       [1; 0; 2]) =
  @compute_metrics exact_rounding
    (mkEvalPrediction (predictions example_prediction) [1; 0; 2]).
Proof.
  apply (@compute_metrics_increasing exact_rounding
           (λ q, Z2Qc 2 * q + Z2Qc 1)%Qc).
  intros p q. rewrite <- Qcplus_lt_mono_r.
  apply Qcmult_lt_mono_pos_l. reflexivity.
Defined.

Lemma compute_metrics_all_wrong_witness :
  @compute_metrics exact_rounding wrong_prediction =
  Ok {[ "accuracy" := 0%Qc; "f1" := 0%Qc ]}.
Proof.
  apply (@compute_metrics_all_wrong exact_rounding exact_rounding_laws).
  - discriminate.
  - repeat constructor.
  - apply (bool_decide_unpack _). reflexivity.
  - repeat constructor; eexists; (split; [reflexivity|discriminate]).
Defined.

Lemma compute_metrics_failures_witness :
  @compute_metrics exact_rounding (mkEvalPrediction [[Z2Qc 1]; []] [0; 0])
    = Raise ValueError ∧
  @compute_metrics exact_rounding
    (mkEvalPrediction (predictions example_prediction) [1; 0])
    = Raise ValueError.
Proof.
  split.
  - apply (proj1 (@compute_metrics_failures exact_rounding
                    (mkEvalPrediction [[Z2Qc 1]; []] [0; 0]))).
    apply (bool_decide_unpack _). reflexivity.
  - apply (proj2 (@compute_metrics_failures exact_rounding
                    (mkEvalPrediction (predictions example_prediction) [1; 0]))).
    + repeat constructor; discriminate.
    + discriminate.
Defined.

(** ** The checkpoint loader: what it touches, and in which order *)

Section CheckpointLoaderMore.

Variable LModel : Type.
Variable from_pretrained : gmap string node → string → option Z → Res LModel.
Variable gradient_checkpointing_enable : LModel → LModel.
Variable model_to : LModel → string → Res LModel.

Abbreviation load' := (load_checkpoint LModel from_pretrained).

(** The loading step, branch by branch. *)
Lemma load_checkpoint_run path w :
  load' (Some path) w =
  if bool_decide (path = "") then
    (from_pretrained (fs w) base_model_name (Some 3), w)
  else
    match fs w !! path with
    | None => (from_pretrained (fs w) base_model_name (Some 3), w)
    | Some _ =>
        match from_pretrained (fs w) path None with
        | Raise e => (Raise e, w)
        | Ok model =>
            match fs w !! os_path_join path "rng_state.pth" with
            | None => (Ok model, w)
            | Some (File _) =>
                (Ok model,
                 mkWorld (delete (os_path_join path "rng_state.pth") (fs w))
                         (trace w))
            | Some (Dir _) =>
                (Raise (IsADirectoryError (os_path_join path "rng_state.pth")),
                 w)
            end
        end
    end.
Proof.
  unfold load_checkpoint, bind at 1.
  destruct (bool_decide (path = "")); [done|].
  unfold os_path_exists at 1.
  destruct (fs w !! path) as [n|]; [|done]. simpl.
  unfold bind at 1, from_pretrained_m.
  destruct (from_pretrained (fs w) path None) as [model|e]; [|done].
  unfold bind at 1, os_path_exists.
  destruct (fs w !! os_path_join path "rng_state.pth") as [[content|sz]|] eqn:E;
    simpl; unfold bind, os_remove, ret; by rewrite ?E.
Qed.

(** The loading step over a library call that only reads the files is the
    loading step of the previous sections. *)
Lemma load_checkpoint_io_pure cp :
  load_checkpoint_io LModel (from_pretrained_m LModel from_pretrained) cp =
  load_checkpoint LModel from_pretrained cp.
Proof. reflexivity. Qed.

(** X19 (frame).  Let the library call that loads the model log and change
    files as it likes.  The loading step makes that call exactly once, first
    of all, on the checkpoint path when it exists and on the base model with
    3 labels otherwise.  When the call fails, the step fails with its error
    at once.  On top of what the call did, the step logs nothing, creates no
    file and leaves every path other than the RNG-state file of the
    checkpoint as it was; it removes that file only when it returns the
    model that the call returned. *)
Theorem load_checkpoint_frame
    (from_pretrained_io : string → option Z → M LModel) path w r w' :
  load_checkpoint_io LModel from_pretrained_io (Some path) w = (r, w') →
  ∃ name num_labels r1 w1,
    from_pretrained_io name num_labels w = (r1, w1) ∧
    (name = path ∧ num_labels = None ∧ path ≠ "" ∧ is_Some (fs w !! path) ∨
     name = base_model_name ∧ num_labels = Some 3 ∧
       (path = "" ∨ fs w !! path = None)) ∧
    (∀ e, r1 = Raise e → r = Raise e ∧ w' = w1) ∧
    trace w' = trace w1 ∧
    (∀ p, p ≠ os_path_join path "rng_state.pth" → fs w' !! p = fs w1 !! p) ∧
    (∀ p, fs w1 !! p = None → fs w' !! p = None) ∧
    (fs w' ≠ fs w1 → r = r1 ∧ is_Ok r).
Proof.
  unfold load_checkpoint_io, bind at 1. intros Hrun.
  assert (Hfresh : ∀ r0 w0,
    from_pretrained_io base_model_name (Some 3) w = (r0, w0) →
    (path = "" ∨ fs w !! path = None) →
    (r0, w0) = (r, w') →
    ∃ name num_labels r1 w1,
      from_pretrained_io name num_labels w = (r1, w1) ∧
      (name = path ∧ num_labels = None ∧ path ≠ "" ∧ is_Some (fs w !! path) ∨
       name = base_model_name ∧ num_labels = Some 3 ∧
         (path = "" ∨ fs w !! path = None)) ∧
      (∀ e, r1 = Raise e → r = Raise e ∧ w' = w1) ∧
      trace w' = trace w1 ∧
      (∀ p, p ≠ os_path_join path "rng_state.pth" → fs w' !! p = fs w1 !! p) ∧
      (∀ p, fs w1 !! p = None → fs w' !! p = None) ∧
      (fs w' ≠ fs w1 → r = r1 ∧ is_Ok r)).
  { intros r0 w0 Hcall Hwhy [= <- <-].
    exists base_model_name, (Some 3), r0, w0.
    split; [done|]. split; [right; done|].
    split; [by intros e ->|]. by repeat split. }
  destruct (bool_decide (path = "")) eqn:Hempty.
  - apply bool_decide_eq_true_1 in Hempty. simpl in Hrun.
    destruct (from_pretrained_io base_model_name (Some 3) w) as [r0 w0] eqn:Hcall.
    eapply Hfresh; [done|by left|done].
  - apply bool_decide_eq_false_1 in Hempty.
    unfold os_path_exists at 1 in Hrun.
    destruct (fs w !! path) as [n|] eqn:Hn.
    2:{ rewrite bool_decide_eq_false_2 in Hrun by (by intros [? ?]).
        destruct (from_pretrained_io base_model_name (Some 3) w)
          as [r0 w0] eqn:Hcall.
        eapply Hfresh; [done|by right|done]. }
    rewrite bool_decide_eq_true_2 in Hrun by (by eexists).
    unfold bind at 1 in Hrun.
    destruct (from_pretrained_io path None w) as [r1 w1] eqn:Hcall.
    exists path, None, r1, w1. split; [done|].
    split; [left; repeat split; [done|by eexists]|].
    destruct r1 as [model|e].
    + unfold bind at 1, os_path_exists in Hrun.
      destruct (fs w1 !! os_path_join path "rng_state.pth")
        as [[content|sz]|] eqn:E.
      * rewrite bool_decide_eq_true_2 in Hrun by (by eexists).
        unfold bind, os_remove, ret in Hrun. rewrite E in Hrun.
        injection Hrun as <- <-. simpl.
        split; [done|]. split; [done|].
        split; [intros p Hp; by rewrite lookup_delete_ne|].
        split; [|intros _; split; [done|by eexists]].
        intros p Hp.
        destruct (decide (p = os_path_join path "rng_state.pth")) as [->|Hne];
          [by rewrite lookup_delete_eq|by rewrite lookup_delete_ne].
      * rewrite bool_decide_eq_true_2 in Hrun by (by eexists).
        unfold bind, os_remove, ret in Hrun. rewrite E in Hrun.
        injection Hrun as <- <-. by repeat split.
      * rewrite bool_decide_eq_false_2 in Hrun by (by intros [? ?]).
        unfold bind, ret in Hrun. injection Hrun as <- <-. by repeat split.
    + injection Hrun as <- <-.
      split; [by intros e' [= ->]|]. by repeat split.
Qed.

(** X20 (a checkpoint that does not load).  When the checkpoint path exists
    but [from_pretrained] rejects it, the loading step fails with that error
    and changes nothing: the RNG-state file, if any, stays. *)
Theorem load_checkpoint_rejected path w e :
  path ≠ "" →
  is_Some (fs w !! path) →
  from_pretrained (fs w) path None = Raise e →
  load_checkpoint LModel from_pretrained (Some path) w = (Raise e, w).
Proof.
  intros Hpath [n Hn] Hload. rewrite load_checkpoint_run.
  rewrite bool_decide_eq_false_2 by done. by rewrite Hn, Hload.
Qed.

(** X21 (resuming twice).  When the checkpoint directory holds an accepted
    model state and an RNG-state file, and the model state is read the same
    with or without that file, a second loading step after the first returns
    the same model and changes nothing more. *)
Theorem load_checkpoint_twice path w sz model content :
  path ≠ "" →
  fs w !! path = Some (Dir sz) →
  from_pretrained (fs w) path None = Ok model →
  fs w !! os_path_join path "rng_state.pth" = Some (File content) →
  from_pretrained (delete (os_path_join path "rng_state.pth") (fs w)) path None
    = Ok model →
  ∃ w1, load' (Some path) w = (Ok model, w1) ∧
        fs w1 !! os_path_join path "rng_state.pth" = None ∧
        load' (Some path) w1 = (Ok model, w1).
Proof.
  intros Hpath Hdir Hmodel Hrng Hmodel'.
  exists (mkWorld (delete (os_path_join path "rng_state.pth") (fs w)) (trace w)).
  assert (Hne : path ≠ os_path_join path "rng_state.pth").
  { intros Heq. rewrite <- Heq in Hrng. congruence. }
  split; [|split].
  - rewrite load_checkpoint_run, bool_decide_eq_false_2 by done.
    by rewrite Hdir, Hmodel, Hrng.
  - simpl. by rewrite lookup_delete_eq.
  - rewrite load_checkpoint_run, bool_decide_eq_false_2 by done. simpl.
    rewrite lookup_delete_ne by done.
    by rewrite Hdir, Hmodel', lookup_delete_eq.
Qed.

(** X22 (the RNG-state file goes before the model moves).  With the
    configured checkpoint present, its model state accepted and an RNG-state
    file in it, the model section of the script returns whatever moving the
    model, with gradient checkpointing enabled, to the accelerator returns,
    and the RNG-state file is gone in either case, also when the move
    fails. *)
Theorem load_model_removes_rng_first w sz model content :
  fs w !! "./results_phase2/checkpoint-9580" = Some (Dir sz) →
  from_pretrained (fs w) "./results_phase2/checkpoint-9580" None = Ok model →
  fs w !! "./results_phase2/checkpoint-9580/rng_state.pth" = Some (File content) →
  load_model LModel from_pretrained gradient_checkpointing_enable model_to w =
  (model_to (gradient_checkpointing_enable model) "cuda",
   mkWorld (delete "./results_phase2/checkpoint-9580/rng_state.pth" (fs w))
           (trace w)).
Proof.
  intros Hdir Hmodel Hrng. unfold load_model, bind, checkpoint_path.
  rewrite load_checkpoint_run.
  rewrite bool_decide_eq_false_2 by done.
  rewrite Hdir, Hmodel.
  change (os_path_join "./results_phase2/checkpoint-9580" "rng_state.pth")
    with "./results_phase2/checkpoint-9580/rng_state.pth".
  by rewrite Hrng.
Qed.

End CheckpointLoaderMore.

Lemma load_checkpoint_frame_witness :
  ∃ name num_labels r1 w1,
    hub_from_pretrained name num_labels checkpoint_world = (r1, w1) ∧
    (name = "./results_phase2/checkpoint-9580" ∧ num_labels = None ∧
       "./results_phase2/checkpoint-9580" ≠ "" ∧
       is_Some (fs checkpoint_world !! "./results_phase2/checkpoint-9580") ∨
     name = base_model_name ∧ num_labels = Some 3 ∧
       ("./results_phase2/checkpoint-9580" = "" ∨
        fs checkpoint_world !! "./results_phase2/checkpoint-9580" = None)) ∧
    (∀ e, r1 = Raise e →
          (load_checkpoint_io _ hub_from_pretrained checkpoint_path
             checkpoint_world).1 = Raise e ∧
          (load_checkpoint_io _ hub_from_pretrained checkpoint_path
             checkpoint_world).2 = w1) ∧
    trace (load_checkpoint_io _ hub_from_pretrained checkpoint_path
             checkpoint_world).2 = trace w1 ∧
    (∀ p, p ≠ os_path_join "./results_phase2/checkpoint-9580" "rng_state.pth" →
          fs (load_checkpoint_io _ hub_from_pretrained checkpoint_path
                checkpoint_world).2 !! p = fs w1 !! p) ∧
    (∀ p, fs w1 !! p = None →
          fs (load_checkpoint_io _ hub_from_pretrained checkpoint_path
                checkpoint_world).2 !! p = None) ∧
    (fs (load_checkpoint_io _ hub_from_pretrained checkpoint_path
           checkpoint_world).2 ≠ fs w1 →
     (load_checkpoint_io _ hub_from_pretrained checkpoint_path
        checkpoint_world).1 = r1 ∧
     is_Ok (load_checkpoint_io _ hub_from_pretrained checkpoint_path
              checkpoint_world).1).
Proof.
  apply (load_checkpoint_frame _ hub_from_pretrained
           "./results_phase2/checkpoint-9580" checkpoint_world).
  reflexivity.
Defined.

Lemma load_checkpoint_rejected_witness :
  load_checkpoint _ ref_from_pretrained checkpoint_path broken_checkpoint_world
  = (Raise OSError, broken_checkpoint_world).
Proof.
  apply (load_checkpoint_rejected _ ref_from_pretrained
           "./results_phase2/checkpoint-9580" broken_checkpoint_world).
  - discriminate.
  - eexists. reflexivity.
  - reflexivity.
Defined.

Lemma load_model_removes_rng_first_witness :
  load_model _ ref_from_pretrained (λ model, model) no_accelerator
    checkpoint_world =
  (Raise RuntimeError,
   mkWorld (delete "./results_phase2/checkpoint-9580/rng_state.pth"
              (fs checkpoint_world))
           (trace checkpoint_world)).
Proof.
  apply (load_model_removes_rng_first _ ref_from_pretrained (λ model, model)
           no_accelerator checkpoint_world 4096 ([x2a], None) [x07]);
    reflexivity.
Defined.

Lemma load_checkpoint_twice_witness :
  ∃ w1, load_checkpoint _ ref_from_pretrained checkpoint_path checkpoint_world
          = (Ok ([x2a], None), w1) ∧
        fs w1 !! os_path_join "./results_phase2/checkpoint-9580" "rng_state.pth"
          = None ∧
        load_checkpoint _ ref_from_pretrained checkpoint_path w1
          = (Ok ([x2a], None), w1).
Proof.
  apply (load_checkpoint_twice _ ref_from_pretrained
           "./results_phase2/checkpoint-9580" checkpoint_world 4096
           ([x2a], None) [x07]); try reflexivity.
  discriminate.
Defined.

(** ** The label shift *)

Lemma np_sub_shifted (ls : list Z) :
  Forall (λ l, l ∈ [-1; 0; 1]) ls → np_sub (map (λ l, l + 1) ls) 1 = ls.
Proof.
  induction 1 as [|l ls Hl _ IH]; [done|].
  simpl. rewrite IH. f_equal.
  repeat (apply elem_of_cons in Hl as [-> | Hl]; [done|]).
  by apply elem_of_nil in Hl.
Qed.

Section LabelShift.
Context `{Rounding}.

(** C4 (label shift round trip).  Take a dataset whose labels are all in
    {-1, 0, 1} and whose arrays hold an entry of 64-bit values for every
    label.  At every index from 0 to [__len__ - 1], [__getitem__] returns an
    item whose label is the original label plus one, a class index in
    {0, 1, 2}, and subtracting one as the metrics function does gives the
    original label back.  Hence [compute_metrics], fed the label ids the
    dataset hands out, scores any predictions exactly as they score against
    the original labels.  Conversely every class index in {0, 1, 2} is the
    shift of exactly one label of {-1, 0, 1}. *)
Theorem label_shift_round_trip (self : NewsDataset.t) all_ids all_masks :
  NewsDataset.encodings self !! "input_ids" = Some all_ids →
  NewsDataset.encodings self !! "attention_mask" = Some all_masks →
  (length (NewsDataset.labels self) ≤ length all_ids)%nat →
  (length (NewsDataset.labels self) ≤ length all_masks)%nat →
  Forall (λ s, forallb int64_range s = true) all_ids →
  Forall (λ s, forallb int64_range s = true) all_masks →
  Forall (λ l, l ∈ [-1; 0; 1]) (NewsDataset.labels self) →
  (∀ idx, 0 ≤ idx < NewsDataset.__len__ self →
     ∃ item l,
       NewsDataset.labels self !! Z.to_nat idx = Some l ∧
       NewsDataset.__getitem__ self idx = Ok item ∧
       item !! "labels" = Some (Scalar (l + 1)) ∧
       l + 1 ∈ [0; 1; 2] ∧
       np_sub [l + 1] 1 = [l]) ∧
  (∀ rows,
     compute_metrics
       (mkEvalPrediction rows (map (λ l, l + 1) (NewsDataset.labels self))) =
     score_against (NewsDataset.labels self) rows) ∧
  (∀ k, k ∈ [0; 1; 2] →
     ∃ l, l ∈ [-1; 0; 1] ∧ l + 1 = k ∧ np_sub [k] 1 = [l] ∧
          ∀ l', l' + 1 = k → l' = l).
Proof.
  intros Hids Hmasks Hli Hlm Hri Hrm Hlabels.
  split; [|split].
  - intros idx Hidx. unfold NewsDataset.__len__ in Hidx.
    destruct (lookup_lt_is_Some_2 (NewsDataset.labels self) (Z.to_nat idx))
      as [l Hl]; [lia|].
    destruct (lookup_lt_is_Some_2 all_ids (Z.to_nat idx)) as [ids Hi]; [lia|].
    destruct (lookup_lt_is_Some_2 all_masks (Z.to_nat idx)) as [mask Hm]; [lia|].
    pose proof (proj1 (Forall_lookup _ _) Hlabels _ _ Hl) as Hin.
    assert (Hshift : l + 1 ∈ [0; 1; 2] ∧ np_sub [l + 1] 1 = [l] ∧
                     int64_range (l + 1) = true).
    { repeat (apply elem_of_cons in Hin as [-> | Hin];
              [split; [apply (bool_decide_unpack _); reflexivity|done]|]).
      by apply elem_of_nil in Hin. }
    destruct Hshift as (Hclass & Hback & Hfit).
    eexists _, l. split; [done|]. split.
    + apply (getitem_at self idx all_ids all_masks ids mask l);
        try done; [lia|..].
      * apply (proj1 (Forall_lookup _ _) Hri _ _ Hi).
      * apply (proj1 (Forall_lookup _ _) Hrm _ _ Hm).
    + split; [|done].
      rewrite lookup_insert_ne by done. rewrite lookup_insert_ne by done.
      by rewrite lookup_singleton_eq.
  - intros rows. unfold compute_metrics, score_against. simpl.
    by rewrite np_sub_shifted.
  - intros k Hk. exists (k - 1).
    repeat (apply elem_of_cons in Hk as [-> | Hk];
            [split; [apply (bool_decide_unpack _); reflexivity|];
             split; [done|split; [done|intros; lia]]|]).
    by apply elem_of_nil in Hk.
Qed.

End LabelShift.

Lemma label_shift_round_trip_witness :
  (∀ idx, 0 ≤ idx < NewsDataset.__len__ example_dataset →
     ∃ item l,
       NewsDataset.labels example_dataset !! Z.to_nat idx = Some l ∧
       NewsDataset.__getitem__ example_dataset idx = Ok item ∧
       item !! "labels" = Some (Scalar (l + 1)) ∧
       l + 1 ∈ [0; 1; 2] ∧
       np_sub [l + 1] 1 = [l]) ∧
  (∀ rows,
     @compute_metrics exact_rounding
       (mkEvalPrediction rows
          (map (λ l, l + 1) (NewsDataset.labels example_dataset))) =
     @score_against exact_rounding (NewsDataset.labels example_dataset) rows) ∧
  (∀ k, k ∈ [0; 1; 2] →
     ∃ l, l ∈ [-1; 0; 1] ∧ l + 1 = k ∧ np_sub [k] 1 = [l] ∧
          ∀ l', l' + 1 = k → l' = l).
Proof.
  apply (@label_shift_round_trip exact_rounding example_dataset
           [[97; 98; 1]; [99; 1; 1]] [[1; 1; 0]; [1; 0; 0]]);
    try reflexivity; repeat constructor.
Defined.
